(** * vite-plugin-localcaddy: the reconciliation engine of [src/mod.ts]

    A shallow embedding of the module's exported helpers
    ([slugFromFolder], [slugFromPkg], [computeDomain], [findRouteByHost],
    [extractUpstreamPort], [arraysEqual], [isPortActive]) and of the
    plugin's internal flow ([req], [get], [ensureCaddyServerExists],
    [ensureTlsPolicy], [addRoute], [replaceRouteAt], [wireDomain]).

    Console output ([log], [warn], [err], [printWhereToBrowse],
    [checkHostsForLocal]) changes neither a returned value nor a request
    and is left out. *)

From Stdlib Require Import ZArith NArith Lia Bool List Ascii String.
From Stdlib Require Import DecimalString DecimalN.
From stdpp Require Import base option list strings gmap.

Local Open Scope string_scope.

(** ** JavaScript strings

    A string is a sequence of code units; the module only ever inspects
    ASCII classes ([a-z], [0-9], [-], [:], [/], white space), so a code
    unit is an [ascii] and the list view is used for scanning. *)

Module Str.

Local Open Scope char_scope.

Definition chars (s : string) : list ascii := list_ascii_of_string s.
Definition pack (l : list ascii) : string := string_of_list_ascii l.

Definition between (lo hi c : ascii) : bool :=
  (nat_of_ascii lo <=? nat_of_ascii c)%nat && (nat_of_ascii c <=? nat_of_ascii hi)%nat.

Definition is_lower (c : ascii) : bool := between "a" "z" c.
Definition is_upper (c : ascii) : bool := between "A" "Z" c.
Definition is_digit (c : ascii) : bool := between "0" "9" c.
Definition is_hyphen (c : ascii) : bool := Ascii.eqb c "-".
Definition is_slash (c : ascii) : bool := Ascii.eqb c "/".

(** White space removed by [String.prototype.trim], ASCII part:
    TAB, LF, VT, FF, CR and SPACE. *)
Definition is_space (c : ascii) : bool :=
  between "009" "013" c || Ascii.eqb c " ".

(** The character class [[a-z0-9-]] of the two slug regexes. *)
Definition slug_char (c : ascii) : bool := is_lower c || is_digit c || is_hyphen c.

(** [String.prototype.toLowerCase] on one code unit: the ASCII capitals
    move to their small letters, every other code unit is left alone
    (whatever it is, the replacement that follows only keeps
    [[a-z0-9-]]). *)
Definition lower_char (c : ascii) : ascii :=
  if is_upper c then ascii_of_nat (nat_of_ascii c + 32) else c.

Definition toLowerCase (l : list ascii) : list ascii := List.map lower_char l.

Fixpoint drop_while (p : ascii -> bool) (l : list ascii) : list ascii :=
  match l with
  | [] => []
  | c :: t => if p c then drop_while p t else l
  end.

Fixpoint take_while (p : ascii -> bool) (l : list ascii) : list ascii :=
  match l with
  | [] => []
  | c :: t => if p c then c :: take_while p t else []
  end.

(** [.replace(/[^a-z0-9-]+/g, "-")]: a left-to-right scan; [in_run] tells
    that the previous code unit was already part of the run being
    replaced, whose single hyphen has been emitted. *)
Fixpoint replace_runs_from (in_run : bool) (l : list ascii) : list ascii :=
  match l with
  | [] => []
  | c :: t =>
      if slug_char c then c :: replace_runs_from false t
      else if in_run then replace_runs_from true t
      else "-" :: replace_runs_from true t
  end.

Definition replace_runs (l : list ascii) : list ascii := replace_runs_from false l.

(** Whether a scan that started with flag [b] and has read [u] stands
    inside a run. *)
Definition in_run_after (b : bool) (u : list ascii) : bool :=
  match last u with
  | Some c => negb (slug_char c)
  | None => b
  end.

(** [.replace(/^-+|-+$/g, "")]: the first alternative removes the leading
    run of hyphens, the second the run that reaches the end of input. *)
Definition strip_hyphens (l : list ascii) : list ascii :=
  rev (drop_while is_hyphen (rev (drop_while is_hyphen l))).

(** [String.prototype.trim]. *)
Definition trim (l : list ascii) : list ascii :=
  rev (drop_while is_space (rev (drop_while is_space l))).

(** The chain [.toLowerCase().replace(...).replace(...)] shared by
    [slugFromFolder] and [slugFromPkg]. *)
Definition slugify (s : string) : string :=
  pack (strip_hyphens (replace_runs (toLowerCase (chars s)))).

(** [basename] of [@std/path] (POSIX flavour, no suffix): trailing
    separators are dropped and the last segment is returned; a path made
    of separators only yields one separator. *)
Definition basename (s : string) : string :=
  let p := chars s in
  let q := drop_while is_slash (rev p) in
  match q with
  | [] => match p with [] => EmptyString | _ => pack ["/"] end
  | _ => pack (rev (take_while (fun c => negb (is_slash c)) q))
  end.

(** Template-literal rendering of a non-negative integer, [`${n}`]. *)
Definition of_N (n : N) : string := NilZero.string_of_uint (N.to_uint n).

Definition of_Z (z : Z) : string :=
  if (z <? 0)%Z then String "-" (of_N (Z.to_N (- z))) else of_N (Z.to_N z).

(** [Number(digits)] for a string the regex [\d+] has matched. The value
    is the exact integer; JavaScript agrees below [2^53]. *)
Definition to_N (digits : list ascii) : N :=
  match NilZero.uint_of_string (pack digits) with
  | Some u => N.of_uint u
  | None => 0%N
  end.

(** [part] occurs in [s]. *)
Definition contains (s part : string) : Prop :=
  exists pre post : string, s = (pre ++ part ++ post)%string.

(** [/:(\d+)$/.exec(s)], first capture group: the digits that end the
    input, when there is at least one and a colon stands before them. *)
Definition colon_digits_at_end (l : list ascii) : option (list ascii) :=
  let r := rev l in
  let ds := take_while is_digit r in
  match ds, drop_while is_digit r with
  | _ :: _, c :: _ => if Ascii.eqb c ":" then Some (rev ds) else None
  | _, _ => None
  end.

End Str.

(** ** Routes and the pure helpers *)

Record Matcher := { host : option (list string) }.

Record Upstream := { dial : string }.

Record Handler := { handler : string; upstreams : option (list Upstream) }.

Record CaddyRoute := {
  match_ : option (list Matcher);
  handle : option (list Handler);
  terminal : option bool
}.

#[global] Instance Matcher_eq_dec : EqDecision Matcher.
Proof. solve_decision. Defined.
#[global] Instance Upstream_eq_dec : EqDecision Upstream.
Proof. solve_decision. Defined.
#[global] Instance Handler_eq_dec : EqDecision Handler.
Proof. solve_decision. Defined.
#[global] Instance CaddyRoute_eq_dec : EqDecision CaddyRoute.
Proof. solve_decision. Defined.

(** [Array.prototype.includes] on an array of strings. *)
Definition includes (l : list string) (x : string) : bool :=
  existsb (String.eqb x) l.

(** The inner loop of [findRouteByHost]: some matcher of the route has a
    [host] array that includes the host. *)
Definition route_matches (r : CaddyRoute) (h : string) : bool :=
  existsb (fun m => match host m with
                    | Some hs => includes hs h
                    | None => false
                    end)
          (default [] (match_ r)).

Fixpoint findRouteFrom (i : Z) (routes : list CaddyRoute) (h : string)
  : option CaddyRoute * Z :=
  match routes with
  | [] => (None, (-1)%Z)
  | r :: rest =>
      if route_matches r h then (Some r, i) else findRouteFrom (i + 1) rest h
  end.

Definition findRouteByHost (routes : option (list CaddyRoute)) (h : string)
  : option CaddyRoute * Z :=
  match routes with
  | None => (None, (-1)%Z)
  | Some rs => findRouteFrom 0 rs h
  end.

(** The body of the handler loop of [extractUpstreamPort]: [Some p] when
    this handler makes the function return [p], [None] when the loop goes
    on. *)
Definition handler_port (h : Handler) : option N :=
  if String.eqb (handler h) "reverse_proxy" then
    match upstreams h with
    | Some (u :: _) =>
        if String.eqb (dial u) "" then None
        else match Str.colon_digits_at_end (Str.trim (Str.chars (dial u))) with
             | Some ds => Some (Str.to_N ds)
             | None => None
             end
    | _ => None
    end
  else None.

Fixpoint first_port (hs : list Handler) : option N :=
  match hs with
  | [] => None
  | h :: rest =>
      match handler_port h with
      | Some p => Some p
      | None => first_port rest
      end
  end.

Definition extractUpstreamPort (route : CaddyRoute) : option N :=
  first_port (default [] (handle route)).

(** The route literal built by both [addRoute] and [replaceRouteAt]. *)
Definition build_route (domain : string) (port : N) : CaddyRoute :=
  {| match_ := Some [ {| host := Some [domain] |} ];
     handle := Some [ {| handler := "reverse_proxy";
                         upstreams := Some [ {| dial := "127.0.0.1:" ++ Str.of_N port |} ] |} ];
     terminal := Some true |}.

Definition arraysEqual (a b : list string) : bool :=
  if negb (length a =? length b)%nat then false
  else forallb (fun xy => String.eqb (fst xy) (snd xy)) (combine a b).

(** [new Set(iterable)] followed by iteration: every element once, in
    the order of first insertion. *)
Definition set_add (acc : list string) (x : string) : list string :=
  if includes acc x then acc else acc ++ [x].

Definition set_of (l : list string) : list string := fold_left set_add l [].

(** ** The liveness probe, [isPortActive]

    The promise executor arms a timer and starts a connection attempt;
    afterwards the event loop runs the callbacks one at a time, in an
    order the program does not control. An [Event] is one callback being
    run (or trying to run); [step] is the body of that callback. *)

Module Probe.

Inductive Event :=
| connected     (* the connect promise fulfils: the [.then] callback *)
| refused       (* the connect promise rejects: the [.catch] callback *)
| timer_fired.  (* the timeout elapses: the [setTimeout] callback *)

Record State := {
  resolved : bool;          (* the [resolved] flag of the closure *)
  resolutions : list bool;  (* every call of the promise's [resolve] *)
  aborted : bool;           (* [abort.abort()] has been called *)
  timer_armed : bool;       (* the timeout is set, not cleared, not fired *)
  settled : bool;           (* the connect promise has settled *)
  conn_closed : bool        (* [conn.close()] has been called *)
}.

Definition init : State :=
  {| resolved := false; resolutions := []; aborted := false;
     timer_armed := true; settled := false; conn_closed := false |}.

Definition done (val : bool) (st : State) : State :=
  if resolved st then st
  else {| resolved := true;
          resolutions := resolutions st ++ [val];
          aborted := true;
          timer_armed := timer_armed st;
          settled := settled st;
          conn_closed := conn_closed st |}.

Definition clearTimeout (st : State) : State :=
  {| resolved := resolved st; resolutions := resolutions st;
     aborted := aborted st; timer_armed := false;
     settled := settled st; conn_closed := conn_closed st |}.

Definition settle (closes : bool) (st : State) : State :=
  {| resolved := resolved st; resolutions := resolutions st;
     aborted := aborted st; timer_armed := timer_armed st;
     settled := true; conn_closed := conn_closed st || closes |}.

(** A timer that was cleared or has fired does not run its callback, and
    a promise that has settled runs no further reaction. *)
Definition step (st : State) (ev : Event) : State :=
  match ev with
  | timer_fired =>
      if timer_armed st then done false (clearTimeout st) else st
  | connected =>
      if settled st then st else done true (settle true (clearTimeout st))
  | refused =>
      if settled st then st else done false (settle false (clearTimeout st))
  end.

Definition run (evs : list Event) : State := fold_left step evs init.

(** The value the promise holds after the events: that of the first
    [resolve] call, if any. The executor has no [reject] at hand. *)
Definition value (st : State) : option bool := head (resolutions st).

(** The timer is armed before anything else, so at least one callback
    runs: a probe is the first event and those that follow. *)
Definition isPortActive (first : Event) (rest : list Event) : State :=
  run (first :: rest).

End Probe.

(** ** Domain resolution *)

Inductive NameSource := folder | pkg.

(** What the [try] block of [slugFromPkg] meets for a directory: the
    file cannot be read or parsed (the [catch] branch), the parsed value
    has no string [name], or it has one. *)
Inductive PkgRead := PkgFails | PkgNoName | PkgName (name : string).

(** What the plugin takes from its host: [Deno.cwd()], the reading of
    [package.json] in a directory, [encodeURIComponent], and, for a port
    on 127.0.0.1 probed with the default timeout, the callbacks of the
    probe in the order the event loop runs them. *)
Record Env := {
  deno_cwd : string;
  read_pkg : string -> PkgRead;
  encodeURIComponent : string -> string;
  probe_events : N -> Probe.Event * list Probe.Event
}.

Definition slugFromFolder (env : Env) (cwd : option string) : string :=
  let dir := default (deno_cwd env) cwd in
  Str.slugify (Str.basename dir).

Definition slugFromPkg (env : Env) (cwd : option string) : string :=
  let dir := default (deno_cwd env) cwd in
  match read_pkg env dir with
  | PkgName name => Str.slugify name
  | PkgNoName => Str.slugify (slugFromFolder env (Some dir))
  | PkgFails => slugFromFolder env (Some dir)
  end.

Record DomainOptions := {
  o_domain : option string;
  o_nameSource : option NameSource;
  o_tld : option string;
  o_cwd : option string
}.

(** Truthiness of an optional string: present and not empty. *)
Definition truthy_str (s : option string) : bool :=
  match s with
  | Some x => negb (String.eqb x "")
  | None => false
  end.

Definition computeDomain (env : Env) (options : DomainOptions) : string :=
  if truthy_str (o_domain options) then default "" (o_domain options)
  else
    let nameSource := default folder (o_nameSource options) in
    let tld := default "localhost" (o_tld options) in
    let cwd := o_cwd options in
    let base := match nameSource with
                | pkg => slugFromPkg env cwd
                | folder => slugFromFolder env cwd
                end in
    base ++ "." ++ tld.


(** ** The configuration tree of the admin API

    Every node the plugin reads or writes, typed as the casts of the
    source type it; [None] is a key that is not there. *)

Record Issuer := { module_ : option string }.

Record Policy := {
  subjects : option (list string);
  issuers : option (list Issuer)
}.

(** Every object of the tree may hold fields the plugin never names;
    they are kept as [others], a list of field names with their JSON
    text. *)
Record Automation := {
  policies : option (list Policy);
  automation_others : list (string * string)
}.

Record TlsApp := {
  automation : option Automation;
  tls_others : list (string * string)
}.

(** [automatic_https] of a server: the [disable] flag and whatever other
    fields the object has (name and JSON text), which the spread
    [{ ...auto, disable: false }] copies. *)
Record AutoHttps := {
  disable : option bool;
  auto_others : list (string * string)
}.

Record Server := {
  listen : option (list string);
  routes : option (list CaddyRoute);
  automatic_https : option AutoHttps;
  server_others : list (string * string)
}.

Record HttpApp := {
  servers : option (gmap string Server);
  http_others : list (string * string)
}.

Record Apps := {
  http : option HttpApp;
  tls : option TlsApp;
  apps_others : list (string * string)
}.

Record Config := {
  apps : option Apps;
  config_others : list (string * string)
}.

(** The object literals the plugin sends. *)
Definition empty_apps : Apps :=                 (* {} *)
  {| http := None; tls := None; apps_others := [] |}.
Definition empty_http : HttpApp :=              (* { servers: {} } *)
  {| servers := Some ∅; http_others := [] |}.
Definition empty_automation : Automation :=     (* { policies: [] } *)
  {| policies := Some []; automation_others := [] |}.
Definition empty_tls : TlsApp :=                (* { automation: { policies: [] } } *)
  {| automation := Some empty_automation; tls_others := [] |}.

(** ** Options *)

Record InternalOptions := {
  adminUrl : string;
  serverId : string;
  opt_listen : list string;
  nameSource : NameSource;
  tld : string;
  domain : option string;
  failOnActiveDomain : bool;
  insertFirst : bool;
  verbose : bool
}.

(** ** HTTP helpers: what [req] and [get] make of a response *)

Inductive Method := GET | POST | PUT.

Inductive Failure :=
| Error (message : string)
| SyntaxError.

Inductive result (A : Type) :=
| Ok (a : A)
| Throw (e : Failure)
| Exit (code : Z).
Arguments Ok {A} a.
Arguments Throw {A} e.
Arguments Exit {A} code.

(** A response of [fetch]. [parsed] is what [JSON.parse] makes of [text]:
    [None] when it throws, [Some None] for [null], [Some (Some v)] for a
    value. Every reader of the plugin treats [null] and [undefined]
    alike ([== null], [??], [?.], [!]), so both are [None] once decoded. *)
Record Response (A : Type) := {
  status : N;
  statusText : string;
  text : string;
  parsed : option (option A)
}.
Arguments status {A} r.
Arguments statusText {A} r.
Arguments text {A} r.
Arguments parsed {A} r.

(** The part of [init] that could tell one request from another; the
    body travels to the remote as a typed value. *)
Record RequestInit := { init_method : Method }.

Module Http.

(** [Response.ok]: the status is in the range 200-299. *)
Definition ok {A} (r : Response A) : bool :=
  (200 <=? status r)%N && (status r <=? 299)%N.

(** [txt ? JSON.parse(txt) : undefined]. *)
Definition decode {A} (r : Response A) : result (option A) :=
  if String.eqb (text r) "" then Ok None
  else match parsed r with
       | Some v => Ok v
       | None => Throw SyntaxError
       end.

Definition failure_message {A} (url : string) (r : Response A) : string :=
  "HTTP " ++ Str.of_N (status r) ++ " " ++ statusText r ++ " for " ++ url
    ++ String "010" (text r).

(** [req(url, init)], given the response [fetch(url, init)] resolved to. *)
Definition req {A} (url : string) (init : RequestInit) (r : Response A)
  : result (option A) :=
  if negb (ok r) then Throw (Error (failure_message url r))
  else decode r.

(** [get(url)], given the response [fetch(url)] resolved to. *)
Definition get {A} (url : string) (r : Response A) : result (option A) :=
  if negb (ok r) then Ok None else decode r.

End Http.

(** ** The admin API as the plugin sees it *)

Inductive Path :=
| p_config            (* /config/ *)
| p_load              (* /load *)
| p_apps              (* /config/apps *)
| p_http              (* /config/apps/http *)
| p_servers           (* /config/apps/http/servers *)
| p_server            (* /config/apps/http/servers/{serverId} *)
| p_listen            (* .../{serverId}/listen *)
| p_automatic_https   (* .../{serverId}/automatic_https *)
| p_routes            (* .../{serverId}/routes *)
| p_route (i : Z)     (* .../{serverId}/routes/{i} *)
| p_tls               (* /config/apps/tls *)
| p_automation        (* /config/apps/tls/automation *)
| p_policies.         (* /config/apps/tls/automation/policies *)

(** The type of the JSON value found at a path. *)
Definition read_type (p : Path) : Type :=
  match p with
  | p_config => Config
  | p_load => unit
  | p_apps => Apps
  | p_http => HttpApp
  | p_servers => gmap string Server
  | p_server => Server
  | p_listen => list string
  | p_automatic_https => AutoHttps
  | p_routes => list CaddyRoute
  | p_route _ => CaddyRoute
  | p_tls => TlsApp
  | p_automation => Automation
  | p_policies => list Policy
  end.

(** The type of the body sent to a path: the node itself, except where
    the plugin posts a whole configuration to [/load] or one element to
    an array. *)
Definition write_type (m : Method) (p : Path) : Type :=
  match m with
  | POST => match p with
            | p_load => Config
            | p_policies => Policy
            | p_routes => CaddyRoute
            | _ => read_type p
            end
  | _ => read_type p
  end.

(** The remote service: how it answers a [GET], and how it answers and
    changes on a [POST] or [PUT]. It is external to the plugin. *)
Class Remote (R : Type) := {
  fetch_get : forall p : Path, R -> Response (read_type p);
  fetch_write : forall (m : Method) (p : Path), write_type m p -> R -> Response unit * R
}.

(** The development server handed to [wireDomain]: the port of
    [httpServer.address()], when there is one, and whether it has a
    [close] method. *)
Record DevServer := {
  dev_port : option N;
  dev_has_close : bool
}.

Record World (R : Type) := {
  remote : R;
  server_closed : bool
}.
Arguments remote {R} w.
Arguments server_closed {R} w.

(** Asynchronous code of the plugin: a state transformer on the world
    that returns, throws, or ends the process. *)
Definition M (R A : Type) : Type := World R -> result A * World R.

Definition ret {R A} (a : A) : M R A := fun w => (Ok a, w).

Definition bind {R A B} (c : M R A) (k : A -> M R B) : M R B :=
  fun w =>
    match c w with
    | (Ok a, w') => k a w'
    | (Throw e, w') => (Throw e, w')
    | (Exit n, w') => (Exit n, w')
    end.

Definition throw {R A} (e : Failure) : M R A := fun w => (Throw e, w).

Definition exit {R A} (code : Z) : M R A := fun w => (Exit code, w).

Notation "'let!' x ':=' c 'in' k" := (bind c (fun x => k))
  (at level 10, x name, c at level 200, k at level 200).

(** ** The plugin *)

Section Plugin.

Context {R : Type} `{Remote R}.
Variable env : Env.
Variable opt : InternalOptions.

Definition serverBase : string :=
  adminUrl opt ++ "/config/apps/http/servers/" ++ encodeURIComponent env (serverId opt).

Definition tlsPath : string := adminUrl opt ++ "/config/apps/tls".

Definition url (p : Path) : string :=
  match p with
  | p_config => adminUrl opt ++ "/config/"
  | p_load => adminUrl opt ++ "/load"
  | p_apps => adminUrl opt ++ "/config/apps"
  | p_http => adminUrl opt ++ "/config/apps/http"
  | p_servers => adminUrl opt ++ "/config/apps/http/servers"
  | p_server => serverBase
  | p_listen => serverBase ++ "/listen"
  | p_automatic_https => serverBase ++ "/automatic_https"
  | p_routes => serverBase ++ "/routes"
  | p_route i => serverBase ++ "/routes/" ++ Str.of_Z i
  | p_tls => tlsPath
  | p_automation => tlsPath ++ "/automation"
  | p_policies => tlsPath ++ "/automation/policies"
  end.

(** [(await fetch(p, { method: "GET" })).ok] *)
Definition have (p : Path) : M R bool :=
  fun w => (Ok (Http.ok (fetch_get p (remote w))), w).

Definition get (p : Path) : M R (option (read_type p)) :=
  fun w => (Http.get (url p) (fetch_get p (remote w)), w).

Definition req (m : Method) (p : Path) (body : write_type m p) : M R unit :=
  fun w =>
    let (r, s) := fetch_write m p body (remote w) in
    (match Http.req (url p) {| init_method := m |} r with
     | Ok _ => Ok tt
     | Throw e => Throw e
     | Exit n => Exit n
     end,
     {| remote := s; server_closed := server_closed w |}).

Definition post (p : Path) (body : write_type POST p) : M R unit :=
  req POST p body.

Definition put (p : Path) (body : write_type PUT p) : M R unit :=
  req PUT p body.

Definition ensurePath (p : Path) (payload : write_type PUT p) : M R unit :=
  let! present := have p in
  if negb present then put p payload else ret tt.

Definition _computeDomain : string :=
  computeDomain env {| o_domain := domain opt;
                       o_nameSource := Some (nameSource opt);
                       o_tld := Some (tld opt);
                       o_cwd := None |}.

Definition internal_policy (domain : string) : Policy :=
  {| subjects := Some [domain];
     issuers := Some [ {| module_ := Some "internal" |} ] |}.

(** The predicate handed to [findIndex] in [ensureTlsPolicy]. *)
Definition covers (domain : string) (p : Policy) : bool :=
  match subjects p, issuers p with
  | Some subs, Some iss =>
      includes subs domain
      && existsb (fun i => match module_ i with
                           | Some m => String.eqb m "internal"
                           | None => false
                           end) iss
  | _, _ => false
  end.

Fixpoint findIndexFrom {A} (i : Z) (f : A -> bool) (l : list A) : Z :=
  match l with
  | [] => (-1)%Z
  | x :: rest => if f x then i else findIndexFrom (i + 1) f rest
  end.

Definition findIndex {A} (f : A -> bool) (l : list A) : Z := findIndexFrom 0 f l.

Definition ensureTlsPolicy (domain : string) : M R unit :=
  let! _ := ensurePath p_apps empty_apps in
  let! haveTls := have p_tls in
  let! _ :=
    if negb haveTls then put p_tls empty_tls
    else
      let! auto := have p_automation in
      let! _ := if negb auto then put p_automation empty_automation
                else ret tt in
      let! pol := have p_policies in
      if negb pol then put p_policies [] else ret tt in
  let! got := get p_policies in
  let policies := default [] got in
  let idx := findIndex (covers domain) policies in
  if (idx =? -1)%Z then post p_policies (internal_policy domain)
  else ret tt.

Definition new_server : Server :=
  {| listen := Some (opt_listen opt); routes := Some [];
     automatic_https := None; server_others := [] |}.

Definition seed_config (domain : string) : Config :=
  {| apps := Some
       {| http := Some {| servers := Some {[ serverId opt := new_server ]};
                          http_others := [] |};
          tls := Some {| automation := Some
                           {| policies := Some [internal_policy domain];
                              automation_others := [] |};
                         tls_others := [] |};
          apps_others := [] |};
     config_others := [] |}.

Definition ensureCaddyServerExists (domain : string) : M R unit :=
  let! root := get p_config in
  match root with
  | None => post p_load (seed_config domain)
  | Some _ =>
      let! haveServer := have p_server in
      let! _ :=
        if negb haveServer then
          let! _ := ensurePath p_apps empty_apps in
          let! _ := ensurePath p_http empty_http in
          let! _ := ensurePath p_servers ∅ in
          put p_server new_server
        else
          let! current := get p_listen in
          let want := set_of (opt_listen opt) in
          let next := set_of (default [] current ++ want) in
          let! _ := if negb (arraysEqual (default [] current) next)
                    then put p_listen next else ret tt in
          let! auto := get p_automatic_https in
          match auto with
          | Some a =>
              match disable a with
              | Some true =>
                  put p_automatic_https
                      {| disable := Some false; auto_others := auto_others a |}
              | _ => ret tt
              end
          | None => ret tt
          end in
      ensureTlsPolicy domain
  end.

Definition getRoutes : M R (option (list CaddyRoute)) := get p_routes.

Definition addRoute (domain : string) (port : N) : M R unit :=
  let route := build_route domain port in
  if insertFirst opt then put (p_route 0) route
  else post p_routes route.

Definition replaceRouteAt (index : Z) (domain : string) (port : N) : M R unit :=
  put (p_route index) (build_route domain port).

(** [await server.close?.()] inside [try { } catch { }]. *)
Definition close_server (server : DevServer) : M R unit :=
  fun w => (Ok tt, {| remote := remote w;
                      server_closed := server_closed w || dev_has_close server |}).

(** [await isPortActive(existingPort)]: the value the promise holds. *)
Definition isPortActive (port : N) : M R bool :=
  let (first, rest) := probe_events env port in
  ret (default false (Probe.value (Probe.isPortActive first rest))).

(** Truthiness of an optional number: present and not zero. *)
Definition truthy_port (p : option N) : option N :=
  match p with
  | Some 0%N => None
  | other => other
  end.

Definition wireDomain (server : DevServer) : M R unit :=
  match truthy_port (dev_port server) with
  | None => throw (Error "Unable to determine Vite dev server port")
  | Some vitePort =>
      let domain := _computeDomain in
      let! _ := ensureCaddyServerExists domain in
      let! routes := getRoutes in
      let (route, index) := findRouteByHost routes domain in
      match route with
      | None => addRoute domain vitePort
      | Some route =>
          match truthy_port (extractUpstreamPort route) with
          | None => replaceRouteAt index domain vitePort
          | Some existingPort =>
              let! active := isPortActive existingPort in
              if active then
                if (existingPort =? vitePort)%N then ret tt
                else if failOnActiveDomain opt then
                  let! _ := close_server server in exit 1
                else ret tt
              else if negb (existingPort =? vitePort)%N then
                replaceRouteAt index domain vitePort
              else ret tt
          end
      end
  end.

End Plugin.

(** The words of the specification for the policy that is looked for: an
    entry whose subject list contains the domain and whose issuer list
    contains an internal issuer. *)
Definition references (d : string) (p : Policy) : Prop :=
  exists (subs : list string) (iss : list Issuer) (i : Issuer),
    subjects p = Some subs /\ d ∈ subs
    /\ issuers p = Some iss /\ i ∈ iss /\ module_ i = Some "internal".

(** ** A configuration store answering the admin API *)

Module Store.

Section Store.

(** The id of the server the plugin manages (the [serverId] option). *)
Variable sid : string.

(** How the remote answers a [PUT] at an index of the route array. The
    plugin sends the same request to create a route in front of the
    others and to overwrite one, so the store takes the answer as given. *)
Variable array_put : Z -> CaddyRoute -> list CaddyRoute -> option (list CaddyRoute).

(** The whole tree; [None] is the [null] of an unset configuration. *)
Definition state : Type := option Config.

Definition at_apps (s : state) : option Apps := s ≫= apps.
Definition at_http (s : state) : option HttpApp := at_apps s ≫= http.
Definition at_servers (s : state) : option (gmap string Server) := at_http s ≫= servers.
Definition at_server (s : state) : option Server := at_servers s ≫= (fun m => m !! sid).
Definition at_listen (s : state) : option (list string) := at_server s ≫= listen.
Definition at_automatic_https (s : state) : option AutoHttps :=
  at_server s ≫= automatic_https.
Definition at_routes (s : state) : option (list CaddyRoute) := at_server s ≫= routes.
Definition at_route (i : Z) (s : state) : option CaddyRoute :=
  at_routes s ≫= (fun rs => if (i <? 0)%Z then None else rs !! Z.to_nat i).
Definition at_tls (s : state) : option TlsApp := at_apps s ≫= tls.
Definition at_automation (s : state) : option Automation := at_tls s ≫= automation.
Definition at_policies (s : state) : option (list Policy) := at_automation s ≫= policies.

Definition lookup (p : Path) : state -> option (read_type p) :=
  match p with
  | p_config => fun s => s
  | p_load => fun _ => None
  | p_apps => at_apps
  | p_http => at_http
  | p_servers => at_servers
  | p_server => at_server
  | p_listen => at_listen
  | p_automatic_https => at_automatic_https
  | p_routes => at_routes
  | p_route i => at_route i
  | p_tls => at_tls
  | p_automation => at_automation
  | p_policies => at_policies
  end.

(** Changing the node under a parent that must be there. *)
Definition in_config (f : Config -> option Config) (s : state) : option state :=
  c ← s; c' ← f c; Some (Some c').
Definition in_apps (f : Apps -> option Apps) (c : Config) : option Config :=
  a ← apps c; a' ← f a; Some {| apps := Some a'; config_others := config_others c |}.
Definition in_http (f : HttpApp -> option HttpApp) (a : Apps) : option Apps :=
  h ← http a; h' ← f h;
  Some {| http := Some h'; tls := tls a; apps_others := apps_others a |}.
Definition in_servers (f : gmap string Server -> option (gmap string Server))
    (h : HttpApp) : option HttpApp :=
  m ← servers h; m' ← f m;
  Some {| servers := Some m'; http_others := http_others h |}.
Definition in_server (f : Server -> option Server) (m : gmap string Server)
    : option (gmap string Server) :=
  sv ← m !! sid; sv' ← f sv; Some (<[sid := sv']> m).
Definition in_tls (f : TlsApp -> option TlsApp) (a : Apps) : option Apps :=
  t ← tls a; t' ← f t;
  Some {| http := http a; tls := Some t'; apps_others := apps_others a |}.
Definition in_automation (f : Automation -> option Automation) (t : TlsApp)
    : option TlsApp :=
  au ← automation t; au' ← f au;
  Some {| automation := Some au'; tls_others := tls_others t |}.

Definition on_server (f : Server -> option Server) : state -> option state :=
  in_config (in_apps (in_http (in_servers (in_server f)))).

(** Writing a node: the value is stored at the path when the parent of
    the path exists. *)
Definition set (p : Path) : read_type p -> state -> option state :=
  match p with
  | p_config => fun v _ => Some (Some v)
  | p_load => fun _ _ => None
  | p_apps => fun v =>
      in_config (fun c => Some {| apps := Some v; config_others := config_others c |})
  | p_http => fun v =>
      in_config (in_apps (fun a =>
        Some {| http := Some v; tls := tls a; apps_others := apps_others a |}))
  | p_servers => fun v =>
      in_config (in_apps (in_http (fun h =>
        Some {| servers := Some v; http_others := http_others h |})))
  | p_server => fun v =>
      in_config (in_apps (in_http (in_servers (fun m => Some (<[sid := v]> m)))))
  | p_listen => fun v =>
      on_server (fun sv => Some {| listen := Some v; routes := routes sv;
                                   automatic_https := automatic_https sv;
                                   server_others := server_others sv |})
  | p_automatic_https => fun v =>
      on_server (fun sv => Some {| listen := listen sv; routes := routes sv;
                                   automatic_https := Some v;
                                   server_others := server_others sv |})
  | p_routes => fun v =>
      on_server (fun sv => Some {| listen := listen sv; routes := Some v;
                                   automatic_https := automatic_https sv;
                                   server_others := server_others sv |})
  | p_route i => fun v =>
      on_server (fun sv => rs ← routes sv; rs' ← array_put i v rs;
                           Some {| listen := listen sv; routes := Some rs';
                                   automatic_https := automatic_https sv;
                                   server_others := server_others sv |})
  | p_tls => fun v =>
      in_config (in_apps (fun a =>
        Some {| http := http a; tls := Some v; apps_others := apps_others a |}))
  | p_automation => fun v =>
      in_config (in_apps (in_tls (fun t =>
        Some {| automation := Some v; tls_others := tls_others t |})))
  | p_policies => fun v =>
      in_config (in_apps (in_tls (in_automation (fun au =>
        Some {| policies := Some v; automation_others := automation_others au |}))))
  end.

(** What a write request does to the tree, [None] when it is refused:
    [POST /load] replaces the tree, a [POST] to an array appends the
    element, any other [POST] or [PUT] stores the node. *)
Definition write (m : Method) (p : Path) : write_type m p -> state -> option state :=
  match m as m0 return write_type m0 p -> state -> option state with
  | GET => fun _ _ => None
  | PUT => set p
  | POST =>
      match p as p0 return write_type POST p0 -> state -> option state with
      | p_load => fun v _ => Some (Some v)
      | p_policies => fun v =>
          in_config (in_apps (in_tls (in_automation (fun au =>
            ps ← policies au;
            Some {| policies := Some (ps ++ [v])%list;
                    automation_others := automation_others au |}))))
      | p_routes => fun v =>
          on_server (fun sv => rs ← routes sv;
                               Some {| listen := listen sv; routes := Some (rs ++ [v])%list;
                                       automatic_https := automatic_https sv;
                                       server_others := server_others sv |})
      | p_config => set p_config
      | p_apps => set p_apps
      | p_http => set p_http
      | p_servers => set p_servers
      | p_server => set p_server
      | p_listen => set p_listen
      | p_automatic_https => set p_automatic_https
      | p_route i => set (p_route i)
      | p_tls => set p_tls
      | p_automation => set p_automation
      end
  end.

Definition found {A} (v : option A) : Response A :=
  {| status := 200; statusText := "OK"; text := "json"; parsed := Some v |}.

Definition missing {A} : Response A :=
  {| status := 404; statusText := "Not Found"; text := "not found"; parsed := None |}.

Definition written : Response unit :=
  {| status := 200; statusText := "OK"; text := ""; parsed := None |}.

Definition refused : Response unit :=
  {| status := 400; statusText := "Bad Request"; text := "invalid path"; parsed := None |}.

(** [GET /config/] answers [null] for an unset configuration; any other
    path that is not there is a 404. *)
Definition answer_get (p : Path) (s : state) : Response (read_type p) :=
  match lookup p s with
  | Some v => found (Some v)
  | None => match p with
            | p_config => found None
            | _ => missing
            end
  end.

Definition answer_write (m : Method) (p : Path) (v : write_type m p) (s : state)
  : Response unit * state :=
  match write m p v s with
  | Some s' => (written, s')
  | None => (refused, s)
  end.

End Store.

End Store.

(** Modelled from the spec: the remote admin API itself, which is a
    service outside of this repository. Section 6 gives a path-based
    tree read and written with [GET], [POST] and [PUT], where a miss is
    an error status; section 4.3 has a write create or replace the node
    at its path and a policy post append to the list. The text of a body
    is kept abstract: the plugin only tests it for emptiness and hands
    it to [JSON.parse], whose value the response records. *)
Definition store_remote (sid : string)
    (array_put : Z -> CaddyRoute -> list CaddyRoute -> option (list CaddyRoute))
  : Remote Store.state :=
  {| fetch_get := Store.answer_get sid;
     fetch_write := Store.answer_write sid array_put |}.

(** ** The tree a bootstrap leaves behind

    The end state of [ensureCaddyServerExists] on the store, written as
    a function of the tree it starts from; [ensureCaddyServerExists_store]
    below proves that the plugin reaches it. *)

Module Outcome.

Section Outcome.

Variable opt : InternalOptions.
Variable domain : string.

Definition merged_listen (current : option (list string)) : list string :=
  set_of (default [] current ++ set_of (opt_listen opt)).

Definition reconciled_server (sv : Server) : Server :=
  {| listen := if arraysEqual (default [] (listen sv)) (merged_listen (listen sv))
               then listen sv else Some (merged_listen (listen sv));
     routes := routes sv;
     automatic_https :=
       match automatic_https sv with
       | Some a =>
           match disable a with
           | Some true => Some {| disable := Some false; auto_others := auto_others a |}
           | _ => Some a
           end
       | None => None
       end;
     server_others := server_others sv |}.

Definition with_server (c : Config) : Config :=
  let a := default empty_apps (apps c) in
  let h := default empty_http (http a) in
  let m := default ∅ (servers h) in
  let sv := match m !! serverId opt with
            | Some sv => reconciled_server sv
            | None => new_server opt
            end in
  {| apps := Some {| http := Some {| servers := Some (<[serverId opt := sv]> m);
                                     http_others := http_others h |};
                     tls := tls a;
                     apps_others := apps_others a |};
     config_others := config_others c |}.

Definition policies_after (ps : list Policy) : list Policy :=
  if (findIndex (covers domain) ps =? -1)%Z
  then (ps ++ [internal_policy domain])%list else ps.

Definition automation_after (au : option Automation) : Automation :=
  match au with
  | None => {| policies := Some (policies_after []); automation_others := [] |}
  | Some au => {| policies := Some (policies_after (default [] (policies au)));
                  automation_others := automation_others au |}
  end.

Definition tls_after (t : option TlsApp) : TlsApp :=
  match t with
  | None => {| automation := Some (automation_after None); tls_others := [] |}
  | Some t => {| automation := Some (automation_after (automation t));
                 tls_others := tls_others t |}
  end.

Definition with_tls (c : Config) : Config :=
  let a := default empty_apps (apps c) in
  {| apps := Some {| http := http a;
                     tls := Some (tls_after (tls a));
                     apps_others := apps_others a |};
     config_others := config_others c |}.

Definition bootstrap (s : Store.state) : Store.state :=
  match s with
  | None => Some (seed_config opt domain)
  | Some c => Some (with_tls (with_server c))
  end.

End Outcome.

End Outcome.

(** ** Sample inputs *)

Module Sample.

(** A host whose working directory is [/home/dev/app], without a
    readable [package.json], where every probed port refuses the
    connection. *)
Definition env : Env :=
  {| deno_cwd := "/home/dev/app";
     read_pkg := fun _ => PkgFails;
     encodeURIComponent := fun s => s;
     probe_events := fun _ => (Probe.refused, []) |}.



(** A route whose only handler does not proxy. *)
Definition static_route : CaddyRoute :=
  {| match_ := Some [ {| host := Some ["test.local"] |} ];
     handle := Some [ {| handler := "static_response"; upstreams := None |} ];
     terminal := None |}.

(** The same host, where every probed port accepts the connection. *)
Definition env_alive : Env :=
  {| deno_cwd := "/home/dev/app";
     read_pkg := fun _ => PkgFails;
     encodeURIComponent := fun s => s;
     probe_events := fun _ => (Probe.connected, []) |}.

Definition opt : InternalOptions :=
  {| adminUrl := "http://127.0.0.1:2019"; serverId := "vite-dev";
     opt_listen := [":443"; ":80"]; nameSource := folder; tld := "localhost";
     domain := Some "app.localhost"; failOnActiveDomain := true;
     insertFirst := true; verbose := false |}.

(** A remote that overwrites the element on a [PUT] at an array index. *)
Definition overwrite (i : Z) (v : CaddyRoute) (rs : list CaddyRoute)
  : option (list CaddyRoute) :=
  if (0 <=? i)%Z && (i <? Z.of_nat (length rs))%Z
  then Some (<[Z.to_nat i := v]> rs) else None.

Definition remote_api : Remote Store.state := store_remote "vite-dev" overwrite.

(** A route for [app.localhost] made by someone else: a second host, no
    [terminal] flag, proxying to [port]. *)
Definition route_to (port : N) : CaddyRoute :=
  {| match_ := Some [ {| host := Some ["app.localhost"; "old.localhost"] |} ];
     handle := Some [ {| handler := "reverse_proxy";
                         upstreams := Some [ {| dial := "127.0.0.1:" ++ Str.of_N port |} ] |} ];
     terminal := None |}.

Definition config_with (r : CaddyRoute) : Config :=
  {| apps := Some
       {| http := Some {| servers := Some
            {[ "vite-dev" := {| listen := Some [":443"; ":80"];
                                routes := Some [r];
                                automatic_https := None;
                                server_others := [("logs", "{}")] |} ]};
                          http_others := [] |};
          tls := Some {| automation := Some
                           {| policies := Some [internal_policy "app.localhost"];
                              automation_others := [] |};
                         tls_others := [] |};
          apps_others := [] |};
     config_others := [("admin", "{}")] |}.

Definition world_with (r : CaddyRoute) : World Store.state :=
  {| remote := Some (config_with r); server_closed := false |}.

(** Options that name the same listen address twice. *)
Definition opt_twice : InternalOptions :=
  {| adminUrl := "http://127.0.0.1:2019"; serverId := "vite-dev";
     opt_listen := [":443"; ":443"]; nameSource := folder; tld := "localhost";
     domain := Some "app.localhost"; failOnActiveDomain := true;
     insertFirst := true; verbose := false |}.

(** A remote whose configuration is unset. *)
Definition blank : World Store.state := {| remote := None; server_closed := false |}.

(** A tree in which two policies already reference [app.localhost]
    with the internal issuer. *)
Definition config_two_policies : Config :=
  {| apps := Some
       {| http := None;
          tls := Some {| automation := Some
                           {| policies := Some [internal_policy "app.localhost";
                                                internal_policy "app.localhost"];
                              automation_others := [] |};
                         tls_others := [] |};
          apps_others := [] |};
     config_others := [] |}.

(** A tree whose managed server listens on [:8080] only. *)
Definition config_8080 : Config :=
  {| apps := Some
       {| http := Some {| servers := Some
            {[ "vite-dev" := {| listen := Some [":8080"];
                                routes := Some [];
                                automatic_https := None;
                                server_others := [] |} ]};
                          http_others := [] |};
          tls := None;
          apps_others := [] |};
     config_others := [] |}.

(** The development server, listening on 5173. *)
Definition dev : DevServer := {| dev_port := Some 5173%N; dev_has_close := true |}.

(** A failed write: the remote answers 500 with a text body. *)
Definition failed_write : Response unit :=
  {| status := 500; statusText := "Internal Server Error";
     text := "boom"; parsed := None |}.

(** A successful write with an empty body. *)
Definition empty_success : Response unit :=
  {| status := 200; statusText := "OK"; text := ""; parsed := None |}.

End Sample.

(** ** Console output and the hosts file

    What [wireDomain] prints or warns about. None of it reaches a
    request; the functions are modelled by the value they hand to
    [console]. *)

Module Text.

Local Open Scope char_scope.

Fixpoint starts_with (prefix l : list ascii) : bool :=
  match prefix, l with
  | [], _ => true
  | p :: ps, c :: cs => Ascii.eqb p c && starts_with ps cs
  | _ :: _, [] => false
  end.

(** [String.prototype.endsWith] *)
Definition endsWith (s suffix : string) : bool :=
  starts_with (rev (Str.chars suffix)) (rev (Str.chars s)).

(** The line read so far, newest character first, without the carriage
    return that the separator [\r?\n] takes with it. *)
Definition drop_cr (cur : list ascii) : list ascii :=
  match cur with
  | c :: r => if Ascii.eqb c "013" then r else cur
  | [] => []
  end.

(** [.split(/\r?\n/)]: [cur] is the current line, newest character
    first. *)
Fixpoint lines_from (cur : list ascii) (l : list ascii) : list (list ascii) :=
  match l with
  | [] => [rev cur]
  | c :: t =>
      if Ascii.eqb c "010" then rev (drop_cr cur) :: lines_from [] t
      else lines_from (c :: cur) t
  end.

Definition split_lines (l : list ascii) : list (list ascii) := lines_from [] l.

(** [.split(/\s+/)]: [cur] is the current field, newest character first;
    [in_ws] tells that the scan stands inside a separator. A separator
    at either end leaves an empty field there. *)
Fixpoint fields_from (cur : list ascii) (in_ws : bool) (l : list ascii)
  : list (list ascii) :=
  match l with
  | [] => [rev cur]
  | c :: t =>
      if Str.is_space c then
        if in_ws then fields_from [] true t
        else rev cur :: fields_from [] true t
      else fields_from (c :: cur) false t
  end.

Definition split_ws (l : list ascii) : list (list ascii) := fields_from [] false l.

End Text.

(** The callback mapped over the addresses in [pickHttpsPort]:
    [/:(\d+)$/.exec(a)] and [Number(m[1])]. *)
Definition listen_port (a : string) : option N :=
  match Str.colon_digits_at_end (Str.chars a) with
  | Some ds => Some (Str.to_N ds)
  | None => None
  end.

Definition pickHttpsPort (listen : list string) : option N :=
  let ports := omap listen_port listen in
  if existsb (N.eqb 443) ports then Some 443%N
  else List.find (fun p => negb (p =? 80)%N) ports.

(** [printWhereToBrowse]: the URL inside the line it prints. *)
Definition printWhereToBrowse (opt : InternalOptions) (domain : string) : string :=
  match truthy_port (pickHttpsPort (opt_listen opt)) with
  | Some httpsPort =>
      if negb (httpsPort =? 443)%N
      then "https://" ++ domain ++ ":" ++ Str.of_N httpsPort
      else "https://" ++ domain
  | None => "https://" ++ domain
  end.

(** The two warnings of [checkHostsForLocal]. *)
Inductive HostsWarning :=
| MissingHostsEntry (domain : string)
| UnreadableHosts (domain : string).

(** The predicate handed to [some] in [checkHostsForLocal]. *)
Definition hosts_line_names (domain : string) (line : list ascii) : bool :=
  if Text.starts_with (Str.chars "#") (Str.trim line) then false
  else includes (List.map Str.pack (tail (Text.split_ws line))) domain.

(** [checkHostsForLocal], given what [Deno.readTextFileSync("/etc/hosts")]
    returns ([None] when it throws): the warning it emits, if any. *)
Definition checkHostsForLocal (hosts : option string) (domain : string)
  : option HostsWarning :=
  if negb (Text.endsWith domain ".local") then None
  else match hosts with
       | Some text =>
           if existsb (hosts_line_names domain) (Text.split_lines (Str.chars text))
           then None
           else Some (MissingHostsEntry domain)
       | None => Some (UnreadableHosts domain)
       end.

(** The callback [configureServer] registers for the [listening] event:
    [wireDomain(server).catch(...)], where the handler only logs. *)
Definition on_listening {R : Type} `{Remote R} (env : Env) (opt : InternalOptions)
    (server : DevServer) : M R unit :=
  fun w =>
    match wireDomain env opt server w with
    | (Throw _, w') => (Ok tt, w')
    | other => other
    end.

(** A computation that returns or throws, but never ends the process. *)
Definition returns_or_throws {R A : Type} (c : M R A) : Prop :=
  forall (w : World R) (n : Z), fst (c w) <> Exit n.

(** More sample inputs. *)
Module Scenario.

(** A remote that is down: every request is answered 502. *)
Definition bad_gateway {A : Type} : Response A :=
  {| status := 502; statusText := "Bad Gateway"; text := "upstream down";
     parsed := None |}.

Definition down_api : Remote unit :=
  {| fetch_get := fun p _ => bad_gateway;
     fetch_write := fun m p _ s => (bad_gateway, s) |}.

Definition down : World unit := {| remote := tt; server_closed := false |}.

(** A development server whose port cannot be read. *)
Definition no_port : DevServer := {| dev_port := None; dev_has_close := true |}.

(** The options of [Sample.opt], appending new routes and leaving an
    active domain alone. *)
Definition opt_permissive : InternalOptions :=
  {| adminUrl := "http://127.0.0.1:2019"; serverId := "vite-dev";
     opt_listen := [":443"; ":80"]; nameSource := folder; tld := "localhost";
     domain := Some "app.localhost"; failOnActiveDomain := false;
     insertFirst := false; verbose := false |}.


(** A route for another host. *)
Definition other_route : CaddyRoute :=
  {| match_ := Some [ {| host := Some ["other.localhost"] |} ];
     handle := Some [ {| handler := "file_server"; upstreams := None |} ];
     terminal := None |}.

End Scenario.

(** * Properties *)

(** ** Strings and slugs *)

Module StrFacts.

Import Str.
Local Open Scope char_scope.

Lemma chars_pack (l : list ascii) : chars (pack l) = l.
Proof. apply list_ascii_of_string_of_list_ascii. Qed.

Lemma pack_chars (s : string) : pack (chars s) = s.
Proof. apply string_of_list_ascii_of_string. Qed.

Lemma chars_app (s t : string) : chars (s ++ t) = (chars s ++ chars t)%list.
Proof. induction s as [|c s IH]; simpl; [reflexivity | now rewrite <- IH]. Qed.

Lemma slug_char_not_upper (c : ascii) : slug_char c = true -> is_upper c = false.
Proof.
  destruct c as [[] [] [] [] [] [] [] []]; vm_compute; congruence.
Qed.

Lemma lower_char_slug (c : ascii) : slug_char c = true -> lower_char c = c.
Proof.
  intros Hc. unfold lower_char. now rewrite (slug_char_not_upper c Hc).
Qed.

Lemma toLowerCase_slug (l : list ascii) :
  Forall (fun c => slug_char c = true) l -> toLowerCase l = l.
Proof.
  induction 1 as [|c l Hc _ IH]; simpl; [reflexivity|].
  now rewrite (lower_char_slug c Hc), IH.
Qed.

Lemma replace_runs_from_slug (b : bool) (l : list ascii) :
  Forall (fun c => slug_char c = true) (replace_runs_from b l).
Proof.
  revert b. induction l as [|c l IH]; intros b; simpl; [constructor|].
  destruct (slug_char c) eqn:Hc.
  - constructor; [exact Hc | apply IH].
  - destruct b; [apply IH | constructor; [reflexivity | apply IH]].
Qed.

Lemma drop_while_suffix (p : ascii -> bool) (l : list ascii) :
  exists k, l = (k ++ drop_while p l)%list.
Proof.
  induction l as [|c l [k IH]]; simpl.
  - now exists [].
  - destruct (p c); [exists (c :: k); simpl; now rewrite <- IH | now exists []].
Qed.

Lemma drop_while_head (p : ascii -> bool) (l : list ascii) (c : ascii) :
  head (drop_while p l) = Some c -> p c = false.
Proof.
  induction l as [|d l IH]; simpl; [discriminate|].
  destruct (p d) eqn:Hd; [exact IH | simpl; congruence].
Qed.

Lemma drop_while_Forall (P : ascii -> Prop) (p : ascii -> bool) (l : list ascii) :
  Forall P l -> Forall P (drop_while p l).
Proof.
  intros Hl. destruct (drop_while_suffix p l) as [k Hk].
  rewrite Hk in Hl. now apply Forall_app in Hl.
Qed.

Lemma strip_hyphens_Forall (P : ascii -> Prop) (l : list ascii) :
  Forall P l -> Forall P (strip_hyphens l).
Proof.
  intros Hl. unfold strip_hyphens.
  apply Forall_rev, drop_while_Forall, Forall_rev, drop_while_Forall, Hl.
Qed.

Lemma head_rev_last (l : list ascii) : head (rev l) = last l.
Proof.
  induction l as [|c l IH] using rev_ind; [reflexivity|].
  rewrite rev_app_distr, last_snoc. reflexivity.
Qed.

Lemma strip_hyphens_last (l : list ascii) : last (strip_hyphens l) <> Some "-".
Proof.
  unfold strip_hyphens. rewrite <- head_rev_last, rev_involutive.
  intros Hh. apply drop_while_head in Hh. discriminate.
Qed.

Lemma strip_hyphens_head (l : list ascii) : head (strip_hyphens l) <> Some "-".
Proof.
  unfold strip_hyphens. set (m := drop_while is_hyphen l).
  assert (Hm : forall c, head m = Some c -> is_hyphen c = false)
    by (intros c; apply drop_while_head).
  destruct (drop_while_suffix is_hyphen (rev m)) as [k Hk].
  assert (Hrev : m = (rev (drop_while is_hyphen (rev m)) ++ rev k)%list).
  { rewrite <- rev_app_distr, <- Hk. now rewrite rev_involutive. }
  destruct (rev (drop_while is_hyphen (rev m))) as [|c t]; [discriminate|].
  intros Hc. simpl in Hc. injection Hc as ->.
  rewrite Hrev in Hm. specialize (Hm "-" eq_refl). discriminate.
Qed.

Lemma replace_runs_from_app (b : bool) (u w : list ascii) :
  replace_runs_from b (u ++ w)
  = (replace_runs_from b u ++ replace_runs_from (in_run_after b u) w)%list.
Proof.
  revert b. induction u as [|c u IH]; intros b; [reflexivity|].
  assert (Hlast : in_run_after b (c :: u) = in_run_after (negb (slug_char c)) u).
  { unfold in_run_after. destruct u as [|d u]; [reflexivity|].
    rewrite last_cons_cons.
    destruct (last (d :: u)) eqn:E; [reflexivity|].
    apply last_None in E. discriminate. }
  rewrite Hlast. simpl.
  destruct (slug_char c) eqn:Hc; simpl.
  - now rewrite IH.
  - destruct b; now rewrite IH.
Qed.

Lemma replace_runs_from_skip (r v : list ascii) :
  Forall (fun c => slug_char c = false) r ->
  replace_runs_from true (r ++ v) = replace_runs_from true v.
Proof.
  induction 1 as [|c r Hc _ IH]; [reflexivity|].
  simpl. now rewrite Hc.
Qed.

Lemma replace_runs_from_start (b : bool) (v : list ascii) :
  match v with [] => True | c :: _ => slug_char c = true end ->
  replace_runs_from b v = replace_runs v.
Proof.
  destruct v as [|c v]; [reflexivity|]. intros Hc.
  unfold replace_runs. simpl. now rewrite Hc.
Qed.

Lemma replace_runs_keep (l : list ascii) :
  Forall (fun c => slug_char c = true) l -> replace_runs l = l.
Proof.
  unfold replace_runs.
  induction 1 as [|c l Hc _ IH]; [reflexivity|].
  simpl. now rewrite Hc, IH.
Qed.

Lemma replace_runs_run (u r v : list ascii) :
  match last u with None => True | Some c => slug_char c = true end ->
  r <> [] ->
  Forall (fun c => slug_char c = false) r ->
  match v with [] => True | c :: _ => slug_char c = true end ->
  replace_runs (u ++ r ++ v) = (replace_runs u ++ "-" :: replace_runs v)%list.
Proof.
  intros Hu Hr Hall Hv. unfold replace_runs at 1 2.
  rewrite replace_runs_from_app.
  assert (Hflag : in_run_after false u = false).
  { unfold in_run_after. destruct (last u) as [c|]; [now rewrite Hu | reflexivity]. }
  rewrite Hflag. f_equal.
  destruct r as [|c r]; [congruence|].
  inversion Hall as [|? ? Hc Hrest]; subst.
  simpl. rewrite Hc. f_equal.
  rewrite (replace_runs_from_skip r v Hrest).
  now apply replace_runs_from_start.
Qed.

End StrFacts.

(** ** Decimal rendering and the port regex *)

Module PortFacts.

Import Str StrFacts.
Local Open Scope char_scope.

Lemma digits_of_uint (d : Decimal.uint) :
  Forall (fun c => is_digit c = true) (chars (NilEmpty.string_of_uint d)).
Proof.
  induction d; simpl; constructor; (reflexivity || assumption).
Qed.

Lemma of_N_digits (n : N) : Forall (fun c => is_digit c = true) (chars (of_N n)).
Proof.
  unfold of_N, NilZero.string_of_uint.
  destruct (N.to_uint n) eqn:E; try (rewrite <- E; apply digits_of_uint).
  repeat constructor.
Qed.

Lemma of_N_nonempty (n : N) : chars (of_N n) <> [].
Proof.
  unfold of_N, NilZero.string_of_uint.
  destruct (N.to_uint n); simpl; discriminate.
Qed.

Lemma to_N_of_N (n : N) : to_N (chars (of_N n)) = n.
Proof.
  unfold to_N. rewrite pack_chars. unfold of_N.
  destruct (N.to_uint n) eqn:E.
  1: { simpl. rewrite <- (DecimalN.Unsigned.of_to n), E. reflexivity. }
  all: rewrite NilZero.usu by discriminate;
    rewrite <- E; apply DecimalN.Unsigned.of_to.
Qed.

Lemma take_while_app_stop (p : ascii -> bool) (ds rest : list ascii) (c : ascii) :
  Forall (fun x => p x = true) ds -> p c = false ->
  take_while p (ds ++ c :: rest) = ds.
Proof.
  intros Hds Hc. induction Hds as [|d ds Hd _ IH]; simpl.
  - now rewrite Hc.
  - now rewrite Hd, IH.
Qed.

Lemma drop_while_app_stop (p : ascii -> bool) (ds rest : list ascii) (c : ascii) :
  Forall (fun x => p x = true) ds -> p c = false ->
  drop_while p (ds ++ c :: rest) = c :: rest.
Proof.
  intros Hds Hc. induction Hds as [|d ds Hd _ IH]; simpl.
  - now rewrite Hc.
  - now rewrite Hd, IH.
Qed.

Lemma colon_digits_at_end_app (pre ds : list ascii) :
  ds <> [] -> Forall (fun c => is_digit c = true) ds ->
  colon_digits_at_end (pre ++ ":" :: ds) = Some ds.
Proof.
  intros Hne Hds. unfold colon_digits_at_end.
  replace (rev (pre ++ ":" :: ds)) with (rev ds ++ ":" :: rev pre)%list
    by (rewrite rev_app_distr; simpl; now rewrite <- app_assoc).
  assert (Hrev : Forall (fun c => is_digit c = true) (rev ds)) by now apply Forall_rev.
  rewrite take_while_app_stop, drop_while_app_stop by (assumption || reflexivity).
  remember (rev ds) as rd eqn:E. destruct rd as [|d t].
  - apply (f_equal (@rev ascii)) in E. rewrite rev_involutive in E.
    symmetry in E. contradiction.
  - rewrite Ascii.eqb_refl, E. now rewrite rev_involutive.
Qed.

Lemma digit_not_space (c : ascii) : is_digit c = true -> is_space c = false.
Proof.
  destruct c as [[] [] [] [] [] [] [] []]; vm_compute; congruence.
Qed.

(** [trim] leaves a string alone that neither starts nor ends with white
    space. *)
Lemma trim_id (c : ascii) (mid ds : list ascii) :
  is_space c = false -> ds <> [] -> Forall (fun x => is_digit x = true) ds ->
  trim (c :: mid ++ ds) = c :: mid ++ ds.
Proof.
  intros Hc Hne Hds. unfold trim. simpl drop_while at 2. rewrite Hc.
  destruct ds as [|d ds] using rev_ind; [contradiction|]. clear IHds.
  apply Forall_app in Hds as [_ Hd]. inversion Hd as [|? ? Hdig _]; subst.
  replace (c :: mid ++ ds ++ [d])%list with ((c :: mid ++ ds) ++ [d])%list
    by (simpl; now rewrite <- app_assoc).
  rewrite rev_app_distr. simpl rev at 1. simpl app at 1.
  simpl drop_while. rewrite (digit_not_space d Hdig).
  simpl. rewrite rev_app_distr, rev_involutive. reflexivity.
Qed.

Lemma handler_port_built (p : N) :
  handler_port {| handler := "reverse_proxy";
                  upstreams := Some [ {| dial := "127.0.0.1:" ++ of_N p |} ] |}
  = Some p.
Proof.
  unfold handler_port. cbn [handler upstreams dial].
  change (String.eqb "reverse_proxy" "reverse_proxy") with true. cbv iota.
  change (String.eqb ("127.0.0.1:" ++ of_N p) "") with false. cbv iota.
  rewrite chars_app.
  change (chars "127.0.0.1:") with ("1" :: chars "27.0.0.1" ++ [":"])%list.
  assert (Hshape : forall ds,
    (("1" :: chars "27.0.0.1" ++ [":"]) ++ ds
     = "1" :: (chars "27.0.0.1" ++ [":"]) ++ ds)%list) by reflexivity.
  rewrite Hshape.
  rewrite trim_id by (reflexivity || apply of_N_nonempty || apply of_N_digits).
  replace ("1" :: (chars "27.0.0.1" ++ [":"]) ++ chars (of_N p))%list
    with (chars "127.0.0.1" ++ ":" :: chars (of_N p))%list by reflexivity.
  rewrite colon_digits_at_end_app by (apply of_N_nonempty || apply of_N_digits).
  now rewrite to_N_of_N.
Qed.

Lemma first_port_none (hs : list Handler) :
  Forall (fun h => handler h <> "reverse_proxy"%string) hs -> first_port hs = None.
Proof.
  induction 1 as [|h hs Hh _ IH]; [reflexivity|].
  simpl. unfold handler_port.
  destruct (String.eqb_spec (handler h) "reverse_proxy"); [contradiction | exact IH].
Qed.

End PortFacts.

(** ** Domain resolution *)




(** C8: for every folder input the slug of [slugFromFolder] consists of
    characters of [[a-z0-9-]] only, is its own lower-case form, and
    neither starts nor ends with a hyphen; the first replacement turns
    every maximal run of characters outside the class into one hyphen
    and keeps the characters of the class; "My App!" gives "my-app" and
    "***x---y***" gives "x---y". *)
Theorem slugFromFolder_slug (env : Env) (cwd : option string) :
  let slug := Str.chars (slugFromFolder env cwd) in
  Forall (fun c => Str.slug_char c = true) slug
  /\ Str.toLowerCase slug = slug
  /\ head slug <> Some "-"%char
  /\ last slug <> Some "-"%char
  /\ (forall u r v : list ascii,
        match last u with None => True | Some c => Str.slug_char c = true end ->
        r <> [] ->
        Forall (fun c => Str.slug_char c = false) r ->
        match v with [] => True | c :: _ => Str.slug_char c = true end ->
        Str.replace_runs (u ++ r ++ v)
        = (Str.replace_runs u ++ "-"%char :: Str.replace_runs v)%list)
  /\ (forall l : list ascii,
        Forall (fun c => Str.slug_char c = true) l -> Str.replace_runs l = l)
  /\ slugFromFolder env (Some "My App!") = "my-app"
  /\ slugFromFolder env (Some "***x---y***") = "x---y".
Proof.
  intros slug.
  assert (Hall : Forall (fun c => Str.slug_char c = true) slug).
  { unfold slug, slugFromFolder, Str.slugify. rewrite StrFacts.chars_pack.
    apply StrFacts.strip_hyphens_Forall, StrFacts.replace_runs_from_slug. }
  split; [exact Hall|].
  split; [now apply StrFacts.toLowerCase_slug|].
  unfold slug, slugFromFolder, Str.slugify. rewrite StrFacts.chars_pack.
  split; [apply StrFacts.strip_hyphens_head|].
  split; [apply StrFacts.strip_hyphens_last|].
  split; [exact StrFacts.replace_runs_run|].
  split; [exact StrFacts.replace_runs_keep|].
  split; reflexivity.
Qed.

Lemma slugFromFolder_slug_witness :
  Str.replace_runs (Str.chars "my app!") = Str.chars "my-app-"
  /\ Str.replace_runs (Str.chars "x---y") = Str.chars "x---y".
Proof.
  destruct (slugFromFolder_slug Sample.env None)
    as (_ & _ & _ & _ & Hrun & Hkeep & _).
  split.
  - etransitivity.
    + apply (Hrun (Str.chars "my") (Str.chars " ") (Str.chars "app!"));
        [reflexivity | discriminate | repeat constructor | reflexivity].
    + etransitivity.
      * apply (f_equal (fun t => (Str.chars "my-" ++ t)%list)).
        apply (Hrun (Str.chars "app") (Str.chars "!") []);
          [reflexivity | discriminate | repeat constructor | exact I].
      * reflexivity.
  - apply Hkeep. repeat constructor.
Defined.

(** ** Route construction and port extraction *)

(** C9: for every domain and port, [extractUpstreamPort] of the route
    that [addRoute] and [replaceRouteAt] build (host match [D], one
    [reverse_proxy] handler dialing 127.0.0.1:p, terminal) is the port;
    for a route none of whose handlers is a [reverse_proxy] it is
    none. *)
Theorem extractUpstreamPort_build_route :
  (forall (D : string) (p : N),
     build_route D p
     = {| match_ := Some [ {| host := Some [D] |} ];
          handle := Some [ {| handler := "reverse_proxy";
                              upstreams := Some [ {| dial := "127.0.0.1:" ++ Str.of_N p |} ] |} ];
          terminal := Some true |}
     /\ extractUpstreamPort (build_route D p) = Some p)
  /\ (forall r : CaddyRoute,
        Forall (fun h => handler h <> "reverse_proxy") (default [] (handle r)) ->
        extractUpstreamPort r = None).
Proof.
  split.
  - intros D p. split; [reflexivity|].
    unfold extractUpstreamPort, build_route. cbn [handle default from_option id first_port].
    now rewrite PortFacts.handler_port_built.
  - intros r Hr. now apply PortFacts.first_port_none.
Qed.

Lemma extractUpstreamPort_build_route_witness :
  extractUpstreamPort (build_route "app.localhost" 5173) = Some 5173%N
  /\ extractUpstreamPort Sample.static_route = None.
Proof.
  destruct extractUpstreamPort_build_route as [Hbuilt Hnone].
  split.
  - apply (Hbuilt "app.localhost" 5173%N).
  - apply (Hnone Sample.static_route). repeat constructor. discriminate.
Defined.

(** ** HTTP helpers *)

Lemma append_assoc (s t u : string) : ((s ++ t) ++ u = s ++ t ++ u)%string.
Proof.
  induction s as [|c s IH]; [reflexivity|].
  change (String c ((s ++ t) ++ u) = String c (s ++ t ++ u)). now rewrite IH.
Qed.

Lemma append_empty (s : string) : (s ++ "" = s)%string.
Proof.
  induction s as [|c s IH]; [reflexivity|].
  change (String c (s ++ "") = String c s). now rewrite IH.
Qed.

(** C6, as stated, fails on the method: the error thrown by [req] is
    built from the status, the status text, the URL and the body, so no
    reading of the error gives back the method of the request. *)
Lemma req_error_forgets_method :
  ~ exists method_of : Failure -> Method,
      forall (url : string) (init : RequestInit) (r : Response unit) (e : Failure),
        Http.ok r = false ->
        Http.req url init r = Throw e ->
        method_of e = init_method init.
Proof.
  intros [method_of Hcapture].
  pose proof (Hcapture "http://127.0.0.1:2019/load" {| init_method := POST |}
                Sample.failed_write _ eq_refl eq_refl) as Hpost.
  pose proof (Hcapture "http://127.0.0.1:2019/load" {| init_method := PUT |}
                Sample.failed_write _ eq_refl eq_refl) as Hput.
  simpl in Hpost, Hput. congruence.
Qed.

(** C6, amended: on a non-success status [get] returns absent and does
    not raise, while [req] (behind [post] and [put]) raises an error
    whose message is "HTTP {status} {statusText} for {url}" followed by
    a line feed and the response body, so it holds the URL, the status
    and the body, but not the method; on a success status an empty body
    decodes to absent in both. *)
Theorem req_get_contract {A : Type} (url : string) (init : RequestInit) (r : Response A) :
  (Http.ok r = false ->
     Http.get url r = Ok None
     /\ Http.req url init r
        = Throw (Error ("HTTP " ++ Str.of_N (status r) ++ " " ++ statusText r
                          ++ " for " ++ url ++ String "010" (text r)))
     /\ (forall msg, Http.req url init r = Throw (Error msg) ->
          Str.contains msg url /\ Str.contains msg (Str.of_N (status r))
          /\ Str.contains msg (text r)))
  /\ (Http.ok r = true -> text r = "" ->
      Http.req url init r = Ok None /\ Http.get url r = Ok None).
Proof.
  split.
  - intros Hok. unfold Http.get, Http.req. rewrite Hok. cbn [negb].
    split; [reflexivity|]. split; [reflexivity|].
    intros msg [= <-]. unfold Http.failure_message. repeat split.
    + exists ("HTTP " ++ Str.of_N (status r) ++ " " ++ statusText r ++ " for "),
             (String "010" (text r)).
      now rewrite !append_assoc.
    + exists "HTTP ", (" " ++ statusText r ++ " for " ++ url ++ String "010" (text r)).
      reflexivity.
    + exists ("HTTP " ++ Str.of_N (status r) ++ " " ++ statusText r ++ " for " ++ url
              ++ String "010" ""), "".
      now rewrite append_empty, !append_assoc.
  - intros Hok Hempty. unfold Http.get, Http.req, Http.decode.
    rewrite Hok, Hempty. split; reflexivity.
Qed.

Lemma req_get_contract_witness :
  Http.get "http://127.0.0.1:2019/load" Sample.failed_write = Ok None
  /\ Http.req "http://127.0.0.1:2019/load" {| init_method := PUT |} Sample.empty_success
     = Ok None.
Proof.
  split.
  - destruct (req_get_contract "http://127.0.0.1:2019/load" {| init_method := PUT |}
                Sample.failed_write) as [Hfail _].
    apply Hfail. reflexivity.
  - destruct (req_get_contract "http://127.0.0.1:2019/load" {| init_method := PUT |}
                Sample.empty_success) as [_ Hempty].
    apply Hempty; reflexivity.
Defined.

(** ** The liveness probe *)

Module ProbeFacts.

Import Probe.

(** Once the promise is resolved, no callback resolves it again, arms
    the timer again, or takes the abort back. *)
Lemma step_after_resolution (st : State) (ev : Event) :
  resolved st = true ->
  resolved (step st ev) = true
  /\ resolutions (step st ev) = resolutions st
  /\ aborted (step st ev) = aborted st
  /\ (timer_armed st = false -> timer_armed (step st ev) = false)
  /\ (conn_closed st = true -> conn_closed (step st ev) = true).
Proof.
  intros Hres. destruct ev; unfold step.
  - destruct (settled st) eqn:E; [(repeat split; intros; auto; congruence)|].
    unfold done. cbn [resolved settle clearTimeout]. rewrite Hres.
    cbn. rewrite orb_true_r. (repeat split; intros; auto; congruence).
  - destruct (settled st) eqn:E; [(repeat split; intros; auto; congruence)|].
    unfold done. cbn [resolved settle clearTimeout]. rewrite Hres.
    cbn. rewrite orb_false_r. (repeat split; intros; auto; congruence).
  - destruct (timer_armed st) eqn:E; [|(repeat split; intros; auto; congruence)].
    unfold done. cbn [resolved clearTimeout]. rewrite Hres. cbn. (repeat split; intros; auto; congruence).
Qed.

Lemma run_after_resolution (evs : list Event) (st : State) :
  resolved st = true -> timer_armed st = false ->
  let st' := fold_left step evs st in
  resolved st' = true
  /\ resolutions st' = resolutions st
  /\ aborted st' = aborted st
  /\ timer_armed st' = false
  /\ (conn_closed st = true -> conn_closed st' = true).
Proof.
  revert st. induction evs as [|ev evs IH]; intros st Hres Htimer; simpl.
  - (repeat split; intros; auto; congruence).
  - destruct (step_after_resolution st ev Hres) as (H1 & H2 & H3 & H4 & H5).
    destruct (IH (step st ev) H1 (H4 Htimer)) as (I1 & I2 & I3 & I4 & I5).
    rewrite I2, I3, H2, H3. repeat split; auto.
Qed.

(** The first callback to run resolves the promise. *)
Lemma first_step (ev : Event) :
  resolved (step init ev) = true
  /\ resolutions (step init ev) = [match ev with connected => true | _ => false end]
  /\ aborted (step init ev) = true
  /\ timer_armed (step init ev) = false
  /\ (ev = connected -> conn_closed (step init ev) = true).
Proof. destruct ev; cbn; repeat split; congruence. Qed.

End ProbeFacts.

(** C10: whatever callback of the probe runs first and whatever follows
    in whatever order, the promise of [isPortActive] is resolved exactly
    once and there is no rejecting it: with true when the connection
    succeeded first (and the connection is then closed), with false when
    the connection failed or the timeout elapsed first; afterwards the
    timer is no longer armed and the abort signal is raised; and inside
    [wireDomain] a probe that timed out is the plain value false, not a
    throw. *)
Theorem isPortActive_resolves_once (first : Probe.Event) (rest : list Probe.Event) :
  let st := Probe.isPortActive first rest in
  Probe.resolutions st
  = [match first with Probe.connected => true | _ => false end]
  /\ length (Probe.resolutions st) = 1%nat
  /\ Probe.value st
     = Some (match first with Probe.connected => true | _ => false end)
  /\ (first = Probe.connected -> Probe.conn_closed st = true)
  /\ Probe.timer_armed st = false
  /\ Probe.aborted st = true
  /\ (forall (R : Type) (env : Env) (port : N) (w : World R),
        first = Probe.timer_fired ->
        probe_events env port = (first, rest) ->
        isPortActive env port w = (Ok false, w)).
Proof.
  intros st.
  destruct (ProbeFacts.first_step first) as (F1 & F2 & F3 & F4 & F5).
  destruct (ProbeFacts.run_after_resolution rest (Probe.step Probe.init first) F1 F4)
    as (R1 & R2 & R3 & R4 & R5).
  assert (Hres : Probe.resolutions st
                 = [match first with Probe.connected => true | _ => false end]).
  { unfold st, Probe.isPortActive, Probe.run. simpl fold_left.
    now rewrite R2, F2. }
  split; [exact Hres|].
  split; [now rewrite Hres|].
  split; [unfold Probe.value; now rewrite Hres|].
  split; [intros Hc; apply R5, F5, Hc|].
  split; [exact R4|].
  split; [unfold st, Probe.isPortActive, Probe.run; simpl fold_left;
          now rewrite R3, F3|].
  intros R env port w Hfirst Hev. unfold isPortActive. rewrite Hev.
  fold st. unfold Probe.value. rewrite Hres, Hfirst. reflexivity.
Qed.

Lemma isPortActive_resolves_once_witness :
  isPortActive (R := unit)
    {| deno_cwd := "/"; read_pkg := fun _ => PkgFails;
       encodeURIComponent := fun s => s;
       probe_events := fun _ => (Probe.timer_fired, [Probe.connected]) |}
    5174 {| remote := tt; server_closed := false |}
  = (Ok false, {| remote := tt; server_closed := false |})
  /\ Probe.conn_closed (Probe.isPortActive Probe.connected [Probe.timer_fired]) = true.
Proof.
  split.
  - destruct (isPortActive_resolves_once Probe.timer_fired [Probe.connected])
      as (_ & _ & _ & _ & _ & _ & Hvalue).
    apply Hvalue; reflexivity.
  - destruct (isPortActive_resolves_once Probe.connected [Probe.timer_fired])
      as (_ & _ & _ & Hclosed & _).
    apply Hclosed. reflexivity.
Defined.

(** ** Reconciliation, for any remote *)

Section Reconcile.

Context {R : Type} `{Remote R}.
Variable env : Env.
Variable opt : InternalOptions.

Lemma findRouteFrom_found (rs : list CaddyRoute) (h : string) (k i : Z) (r : CaddyRoute) :
  findRouteFrom k rs h = (Some r, i) ->
  (k <= i)%Z /\ rs !! Z.to_nat (i - k) = Some r /\ route_matches r h = true.
Proof.
  revert k. induction rs as [|x rs IH]; intros k; simpl; [discriminate|].
  destruct (route_matches x h) eqn:Hx.
  - intros [= -> ->]. rewrite Z.sub_diag. repeat split; [lia | exact Hx].
  - intros Hfound. destruct (IH _ Hfound) as (Hle & Hlook & Hm).
    repeat split; [lia | | exact Hm].
    replace (Z.to_nat (i - k)) with (S (Z.to_nat (i - (k + 1)))) by lia.
    exact Hlook.
Qed.

Lemma findRouteByHost_found (routes : option (list CaddyRoute)) (h : string)
    (i : Z) (r : CaddyRoute) :
  findRouteByHost routes h = (Some r, i) ->
  exists rs, routes = Some rs /\ (0 <= i)%Z /\ rs !! Z.to_nat i = Some r
             /\ route_matches r h = true.
Proof.
  destruct routes as [rs|]; simpl; [|discriminate].
  intros Hfound. apply findRouteFrom_found in Hfound as (Hle & Hlook & Hm).
  exists rs. rewrite Z.sub_0_r in Hlook. auto.
Qed.

(** The flow of [wireDomain] up to the decision, once the bootstrap has
    returned and the routes have been read. *)
Lemma wireDomain_decision (server : DevServer) (w w1 : World R) (P : N)
    (routes : option (list CaddyRoute)) :
  truthy_port (dev_port server) = Some P ->
  ensureCaddyServerExists env opt (_computeDomain env opt) w = (Ok tt, w1) ->
  fst (getRoutes env opt w1) = Ok routes ->
  wireDomain env opt server w
  = (let (route, index) return M R unit :=
         findRouteByHost routes (_computeDomain env opt) in
     match route with
     | None => addRoute env opt (_computeDomain env opt) P
     | Some route =>
         match truthy_port (extractUpstreamPort route) with
         | None => replaceRouteAt env opt index (_computeDomain env opt) P
         | Some existingPort =>
             let! active := isPortActive env existingPort in
             if active then
               if (existingPort =? P)%N then ret tt
               else if failOnActiveDomain opt then
                 let! _ := close_server server in exit 1
               else ret tt
             else if negb (existingPort =? P)%N then
               replaceRouteAt env opt index (_computeDomain env opt) P
             else ret tt
         end
     end) w1.
Proof.
  intros HP Hboot Hroutes. unfold wireDomain. rewrite HP.
  unfold bind at 1. rewrite Hboot.
  unfold bind at 1.
  unfold getRoutes, get in *. cbn [fst] in Hroutes. rewrite Hroutes.
  reflexivity.
Qed.

End Reconcile.







(** ** Arrays and sets of addresses *)

Module SetFacts.

Lemma includes_elem_of (l : list string) (x : string) : includes l x = true <-> x ∈ l.
Proof.
  unfold includes. rewrite existsb_exists, list_elem_of_In. split.
  - intros (y & Hy & Heq). apply String.eqb_eq in Heq. now subst.
  - intros Hx. exists x. split; [exact Hx | apply String.eqb_refl].
Qed.

Lemma set_add_elem_of (acc : list string) (x y : string) :
  y ∈ set_add acc x <-> y ∈ acc \/ y = x.
Proof.
  unfold set_add. destruct (includes acc x) eqn:Hx.
  - apply includes_elem_of in Hx. split; [auto | intros [?| ->]; auto].
  - rewrite elem_of_app, list_elem_of_singleton. tauto.
Qed.

Lemma fold_set_add_elem_of (l acc : list string) (y : string) :
  y ∈ fold_left set_add l acc <-> y ∈ acc \/ y ∈ l.
Proof.
  revert acc. induction l as [|x l IH]; intros acc; simpl.
  - rewrite elem_of_nil. tauto.
  - rewrite IH, set_add_elem_of, elem_of_cons. tauto.
Qed.

Lemma set_add_NoDup (acc : list string) (x : string) :
  NoDup acc -> NoDup (set_add acc x).
Proof.
  intros Hacc. unfold set_add. destruct (includes acc x) eqn:Hx; [exact Hacc|].
  apply NoDup_app. split; [exact Hacc|].
  split; [|apply NoDup_singleton].
  intros y Hy Hin. apply list_elem_of_singleton in Hin as ->.
  apply includes_elem_of in Hy. congruence.
Qed.

Lemma fold_set_add_NoDup (l acc : list string) :
  NoDup acc -> NoDup (fold_left set_add l acc).
Proof.
  revert acc. induction l as [|x l IH]; intros acc Hacc; simpl; [exact Hacc|].
  apply IH, set_add_NoDup, Hacc.
Qed.

Lemma fold_set_add_absorb (l acc : list string) :
  (forall x, x ∈ l -> x ∈ acc) -> fold_left set_add l acc = acc.
Proof.
  revert acc. induction l as [|x l IH]; intros acc Hsub; simpl; [reflexivity|].
  assert (Hx : includes acc x = true) by (apply includes_elem_of, Hsub; left).
  unfold set_add at 2. rewrite Hx. apply IH. intros y Hy. apply Hsub. now right.
Qed.

Lemma fold_set_add_fresh (l acc : list string) :
  NoDup (acc ++ l) -> fold_left set_add l acc = (acc ++ l)%list.
Proof.
  revert acc. induction l as [|x l IH]; intros acc Hnd; simpl.
  - now rewrite app_nil_r.
  - assert (Hx : includes acc x = false).
    { destruct (includes acc x) eqn:Hx; [|reflexivity].
      apply includes_elem_of in Hx. apply NoDup_app in Hnd as (_ & Hdisj & _).
      exfalso. apply (Hdisj x Hx). left. }
    unfold set_add at 2. rewrite Hx.
    rewrite IH; rewrite <- app_assoc; [reflexivity | exact Hnd].
Qed.

Lemma set_of_elem_of (l : list string) (y : string) : y ∈ set_of l <-> y ∈ l.
Proof. unfold set_of. rewrite fold_set_add_elem_of, elem_of_nil. tauto. Qed.

Lemma set_of_NoDup (l : list string) : NoDup (set_of l).
Proof. apply fold_set_add_NoDup. constructor. Qed.

Lemma set_of_fresh (l : list string) : NoDup l -> set_of l = l.
Proof. intros Hl. unfold set_of. now rewrite fold_set_add_fresh. Qed.

(** Merging the desired addresses into a list that already is the
    merge changes nothing. *)
Lemma set_of_merge_again (cur want : list string) :
  set_of (set_of (cur ++ want) ++ want) = set_of (cur ++ want).
Proof.
  unfold set_of at 1. rewrite fold_left_app.
  fold (set_of (set_of (cur ++ want))).
  rewrite (set_of_fresh _ (set_of_NoDup _)).
  apply fold_set_add_absorb. intros x Hx.
  apply set_of_elem_of, elem_of_app. now right.
Qed.

Lemma arraysEqual_eq (a b : list string) : arraysEqual a b = true <-> a = b.
Proof.
  unfold arraysEqual. split.
  - destruct (Nat.eqb_spec (length a) (length b)) as [Hlen|]; [|discriminate].
    cbn [negb]. revert b Hlen. induction a as [|x a IH]; intros [|y b] Hlen;
      simpl in *; try discriminate; [reflexivity|].
    rewrite andb_true_iff. intros [Hxy Hrest].
    apply String.eqb_eq in Hxy. subst. f_equal. apply IH; [lia | exact Hrest].
  - intros ->. rewrite Nat.eqb_refl. cbn [negb].
    induction b as [|y b IH]; simpl; [reflexivity|].
    now rewrite String.eqb_refl, IH.
Qed.

End SetFacts.

(** ** The bootstrap on the store *)

Section Bootstrap.

Variable env : Env.
Variable opt : InternalOptions.
Variable array_put : Z -> CaddyRoute -> list CaddyRoute -> option (list CaddyRoute).
Variable domain : string.

Let api : Remote Store.state := store_remote (serverId opt) array_put.

Lemma have_store (p : Path) (w : World Store.state) :
  p <> p_config ->
  @have _ api p w
  = (Ok (match Store.lookup (serverId opt) p (remote w) with
         | Some _ => true
         | None => false
         end), w).
Proof.
  intros Hp. unfold have. cbn [fetch_get api store_remote]. unfold Store.answer_get.
  destruct (Store.lookup (serverId opt) p (remote w)); [reflexivity|].
  destruct p; try reflexivity. contradiction.
Qed.

Lemma get_store (p : Path) (w : World Store.state) :
  @get _ api env opt p w = (Ok (Store.lookup (serverId opt) p (remote w)), w).
Proof.
  unfold get. cbn [fetch_get api store_remote]. unfold Store.answer_get.
  destruct (Store.lookup (serverId opt) p (remote w)); [reflexivity|].
  destruct p; reflexivity.
Qed.

Lemma req_store (m : Method) (p : Path) (v : write_type m p) (w : World Store.state)
    (s' : Store.state) :
  Store.write (serverId opt) array_put m p v (remote w) = Some s' ->
  @req _ api env opt m p v w
  = (Ok tt, {| remote := s'; server_closed := server_closed w |}).
Proof.
  intros Hset. unfold req. cbn [fetch_write api store_remote].
  unfold Store.answer_write. rewrite Hset. reflexivity.
Qed.

Lemma ensureTlsPolicy_store (c : Config) (closed : bool) :
  @ensureTlsPolicy _ api env opt domain {| remote := Some c; server_closed := closed |}
  = (Ok tt, {| remote := Some (Outcome.with_tls domain c); server_closed := closed |}).
Proof.
  destruct c as [[[h [[[[[ps|] auo]|] to]|] ao]|] co];
    unfold ensureTlsPolicy, Outcome.with_tls, Outcome.tls_after,
      Outcome.automation_after, Outcome.policies_after; cbn.
  all: try reflexivity.
  match goal with |- context [Z.eqb ?a ?b] => destruct (Z.eqb a b) end; reflexivity.
Qed.

Lemma ensurePath_store (p : Path) (v : write_type PUT p) (w : World Store.state) :
  p <> p_config ->
  @ensurePath _ api env opt p v w
  = match Store.lookup (serverId opt) p (remote w) with
    | Some _ => (Ok tt, w)
    | None => @req _ api env opt PUT p v w
    end.
Proof.
  intros Hp. unfold ensurePath, bind. rewrite have_store by exact Hp.
  destruct (Store.lookup (serverId opt) p (remote w)); reflexivity.
Qed.

Ltac store_eval H :=
  repeat first
    [ progress (cbn -[lookup insert arraysEqual set_of ensureTlsPolicy bind
                      have get req ensurePath Outcome.with_server])
    | progress (unfold Store.in_server)
    | rewrite H
    | rewrite lookup_insert_eq
    | rewrite insert_insert_eq ].

Ltac store_write H :=
  unfold put, post; erewrite req_store by (store_eval H; reflexivity).

Ltac store_act H :=
  first [ rewrite get_store
        | rewrite have_store by discriminate
        | rewrite ensurePath_store by discriminate; store_eval H; try store_write H
        | store_write H
        | match goal with
          | |- match ret _ _ with _ => _ end = _ => unfold ret at 1
          | |- ret _ _ = _ => unfold ret at 1
          end ];
  store_eval H.

Ltac store_step H := unfold bind at 1; store_act H.

Lemma bind_assoc {R A B C} (c : M R A) (f : A -> M R B) (k : B -> M R C) (w : World R) :
  bind c (fun a => bind (f a) k) w = bind (bind c f) k w.
Proof. unfold bind. destruct (c w) as [[a|e|n] w']; reflexivity. Qed.

Lemma ensureCaddyServerExists_store (s : Store.state) (closed : bool) :
  @ensureCaddyServerExists _ api env opt domain {| remote := s; server_closed := closed |}
  = (Ok tt, {| remote := Outcome.bootstrap opt domain s; server_closed := closed |}).
Proof.
  destruct s as [c|]; [|reflexivity].
  unfold ensureCaddyServerExists.
  unfold bind at 1. rewrite get_store. cbn [remote Store.lookup].
  rewrite bind_assoc.
  match goal with
  | |- bind ?part ?k ?w = _ =>
      assert (Hpart : part w
                      = (Ok tt, {| remote := Some (Outcome.with_server opt c);
                                   server_closed := closed |}))
  end.
  { destruct c as [[[[[[m|] ho]|] t ao]|] co].
    - destruct (m !! serverId opt) as [sv|] eqn:Hsv.
      + store_step Hsv. store_step Hsv.
        unfold Outcome.with_server, Outcome.reconciled_server, Outcome.merged_listen.
        store_eval Hsv.
        destruct (arraysEqual _ _) eqn:Heq; cbn [negb];
          store_step Hsv; store_step Hsv;
          destruct (automatic_https sv) as [[[[|]|] oth]|] eqn:Hauto;
          store_eval Hsv; try store_act Hsv.
        all: repeat f_equal.
        all: symmetry; apply insert_id; rewrite Hsv; f_equal;
          destruct sv; cbn in *; congruence.
      + repeat store_step Hsv. try store_act Hsv.
        unfold Outcome.with_server. store_eval Hsv. reflexivity.
    - repeat store_step I. try store_act I. reflexivity.
    - repeat store_step I. try store_act I. reflexivity.
    - repeat store_step I. try store_act I. reflexivity. }
  unfold bind at 1. rewrite Hpart. apply ensureTlsPolicy_store.
Qed.

End Bootstrap.

(** ** The outcome of a bootstrap *)

Module OutcomeFacts.

Lemma covers_references (d : string) (p : Policy) :
  covers d p = true <-> references d p.
Proof.
  unfold covers, references. destruct (subjects p) as [subs|], (issuers p) as [iss|].
  - rewrite andb_true_iff, SetFacts.includes_elem_of, existsb_exists. split.
    + intros (Hd & i & Hi & Hm). exists subs, iss, i.
      destruct (module_ i) as [m|]; [|discriminate].
      apply String.eqb_eq in Hm. subst. apply list_elem_of_In in Hi. auto.
    + intros (subs' & iss' & i & [= <-] & Hd & [= <-] & Hi & Hm).
      split; [exact Hd|]. exists i. rewrite Hm. split; [|reflexivity].
      now apply list_elem_of_In.
  - split; [discriminate|]. intros (? & ? & ? & _ & _ & [=] & _).
  - split; [discriminate|]. intros (? & ? & ? & [=] & _).
  - split; [discriminate|]. intros (? & ? & ? & [=] & _).
Qed.

Lemma covers_internal_policy (d : string) : covers d (internal_policy d) = true.
Proof.
  unfold covers, internal_policy, includes. cbn. now rewrite String.eqb_refl.
Qed.

Lemma findIndexFrom_spec {A} (f : A -> bool) (l : list A) (i : Z) :
  (0 <= i)%Z ->
  (findIndexFrom i f l =? -1)%Z = negb (existsb f l).
Proof.
  revert i. induction l as [|x l IH]; intros i Hi; cbn; [reflexivity|].
  destruct (f x); cbn.
  - apply Z.eqb_neq. lia.
  - apply IH. lia.
Qed.

Lemma findIndex_spec {A} (f : A -> bool) (l : list A) :
  (findIndex f l =? -1)%Z = negb (existsb f l).
Proof. apply findIndexFrom_spec. lia. Qed.

Section Facts.

Variable opt : InternalOptions.
Variable domain : string.

Lemma policies_after_cases (ps : list Policy) :
  Outcome.policies_after domain ps
  = if existsb (covers domain) ps then ps else (ps ++ [internal_policy domain])%list.
Proof.
  unfold Outcome.policies_after. rewrite findIndex_spec.
  now destruct (existsb (covers domain) ps).
Qed.

Lemma policies_after_covered (ps : list Policy) :
  existsb (covers domain) (Outcome.policies_after domain ps) = true.
Proof.
  rewrite policies_after_cases. destruct (existsb (covers domain) ps) eqn:E; [exact E|].
  rewrite existsb_app. cbn [existsb]. rewrite covers_internal_policy.
  now rewrite !orb_true_r.
Qed.

Lemma policies_after_again (ps : list Policy) :
  Outcome.policies_after domain (Outcome.policies_after domain ps)
  = Outcome.policies_after domain ps.
Proof.
  rewrite (policies_after_cases (Outcome.policies_after domain ps)).
  now rewrite policies_after_covered.
Qed.

Lemma with_tls_again (c : Config) :
  Outcome.with_tls domain (Outcome.with_tls domain c) = Outcome.with_tls domain c.
Proof.
  destruct c as [[[h [[[[[ps|] auo]|] to]|] ao]|] co];
    unfold Outcome.with_tls, Outcome.tls_after, Outcome.automation_after;
    cbn [apps tls automation policies default from_option id
         automation_others tls_others apps_others config_others http empty_apps];
    now rewrite policies_after_again.
Qed.

Lemma merged_listen_again (cur : option (list string)) :
  Outcome.merged_listen opt (Some (Outcome.merged_listen opt cur))
  = Outcome.merged_listen opt cur.
Proof. unfold Outcome.merged_listen. cbn. apply SetFacts.set_of_merge_again. Qed.

Lemma reconciled_server_again (sv : Server) :
  Outcome.reconciled_server opt (Outcome.reconciled_server opt sv)
  = Outcome.reconciled_server opt sv.
Proof.
  unfold Outcome.reconciled_server at 1.
  assert (Hlisten :
    (if arraysEqual (default [] (listen (Outcome.reconciled_server opt sv)))
          (Outcome.merged_listen opt (listen (Outcome.reconciled_server opt sv)))
     then listen (Outcome.reconciled_server opt sv)
     else Some (Outcome.merged_listen opt (listen (Outcome.reconciled_server opt sv))))
    = listen (Outcome.reconciled_server opt sv)).
  { cbn [Outcome.reconciled_server listen].
    destruct (arraysEqual (default [] (listen sv)) (Outcome.merged_listen opt (listen sv)))
      eqn:Heq.
    - now rewrite Heq.
    - rewrite merged_listen_again. cbn [default from_option id].
      now rewrite (proj2 (SetFacts.arraysEqual_eq _ _) eq_refl). }
  rewrite Hlisten.
  unfold Outcome.reconciled_server. cbn [listen routes automatic_https server_others].
  f_equal. destruct (automatic_https sv) as [[[[|]|] oth]|]; reflexivity.
Qed.

Lemma reconciled_new_server :
  NoDup (opt_listen opt) ->
  Outcome.reconciled_server opt (new_server opt) = new_server opt.
Proof.
  intros Hnd. unfold Outcome.reconciled_server, new_server, Outcome.merged_listen.
  cbn [listen routes automatic_https server_others default from_option id].
  rewrite (SetFacts.set_of_fresh _ Hnd).
  assert (Hsame : set_of (opt_listen opt ++ opt_listen opt) = opt_listen opt).
  { unfold set_of. rewrite fold_left_app. fold (set_of (opt_listen opt)).
    rewrite (SetFacts.set_of_fresh _ Hnd). now apply SetFacts.fold_set_add_absorb. }
  rewrite Hsame. now rewrite (proj2 (SetFacts.arraysEqual_eq _ _) eq_refl).
Qed.

End Facts.

End OutcomeFacts.

Section OutcomeOnTree.

Variable opt : InternalOptions.
Variable domain : string.

Ltac tree_eval :=
  unfold Outcome.with_server, Outcome.with_tls;
  cbn [apps http tls servers default from_option id empty_apps empty_http
       http_others apps_others config_others].

Lemma with_server_with_tls (c : Config) :
  Outcome.with_server opt (Outcome.with_tls domain c)
  = Outcome.with_tls domain (Outcome.with_server opt c).
Proof. destruct c as [[[h t ao]|] co]; tree_eval; reflexivity. Qed.

Lemma with_server_again (c : Config) :
  NoDup (opt_listen opt) ->
  Outcome.with_server opt (Outcome.with_server opt c) = Outcome.with_server opt c.
Proof.
  intros Hnd.
  destruct c as [[[[[[m|] ho]|] t ao]|] co]; tree_eval;
    rewrite ?lookup_empty, ?lookup_insert_eq, ?insert_insert_eq;
    try destruct (m !! serverId opt) as [sv|];
    rewrite ?OutcomeFacts.reconciled_server_again,
            ?(OutcomeFacts.reconciled_new_server opt Hnd);
    reflexivity.
Qed.

Lemma seed_config_settled :
  NoDup (opt_listen opt) ->
  Outcome.with_tls domain (Outcome.with_server opt (seed_config opt domain))
  = seed_config opt domain.
Proof.
  intros Hnd. unfold seed_config. tree_eval.
  rewrite lookup_singleton_eq, (OutcomeFacts.reconciled_new_server opt Hnd).
  rewrite insert_singleton_eq.
  unfold Outcome.tls_after, Outcome.automation_after.
  cbn [automation policies default from_option id automation_others tls_others].
  rewrite OutcomeFacts.policies_after_cases.
  cbn [existsb]. now rewrite OutcomeFacts.covers_internal_policy.
Qed.

Lemma bootstrap_again (s : Store.state) :
  NoDup (opt_listen opt) ->
  Outcome.bootstrap opt domain (Outcome.bootstrap opt domain s)
  = Outcome.bootstrap opt domain s.
Proof.
  intros Hnd. destruct s as [c|]; cbn [Outcome.bootstrap].
  - rewrite with_server_with_tls, (with_server_again _ Hnd).
    now rewrite OutcomeFacts.with_tls_again.
  - now rewrite (seed_config_settled Hnd).
Qed.

Lemma at_server_bootstrap (c : Config) :
  Store.at_server (serverId opt) (Outcome.bootstrap opt domain (Some c))
  = Some (match Store.at_server (serverId opt) (Some c) with
          | Some sv => Outcome.reconciled_server opt sv
          | None => new_server opt
          end).
Proof.
  destruct c as [[[[[[m|] ho]|] t ao]|] co];
    cbn -[lookup insert Outcome.reconciled_server new_server];
    rewrite ?lookup_empty, ?lookup_insert_eq; reflexivity.
Qed.

Lemma at_policies_with_tls (c : Config) :
  Store.at_policies (Some (Outcome.with_tls domain c))
  = Some (Outcome.policies_after domain (default [] (Store.at_policies (Some c)))).
Proof.
  destruct c as [[[h [[[[[ps|] auo]|] to]|] ao]|] co]; reflexivity.
Qed.

End OutcomeOnTree.

(** ** Bootstrap: idempotence, the TLS policy, the listen addresses *)

(** C3, as stated, fails for a desired listen list that repeats an
    address: from an unset configuration the first run seeds the server
    with [":443"; ":443"], and the second run, merging through a set,
    writes [":443"] back. *)
Lemma bootstrap_twice_differs :
  let run := @ensureCaddyServerExists _ Sample.remote_api Sample.env Sample.opt_twice
               "app.localhost" in
  fst (run Sample.blank) = Ok tt
  /\ fst (run (snd (run Sample.blank))) = Ok tt
  /\ Store.at_listen "vite-dev" (remote (snd (run Sample.blank)))
     = Some [":443"; ":443"]
  /\ Store.at_listen "vite-dev" (remote (snd (run (snd (run Sample.blank)))))
     = Some [":443"]
  /\ snd (run (snd (run Sample.blank))) <> snd (run Sample.blank).
Proof.
  cbv zeta.
  assert (H1 : Store.at_listen "vite-dev"
                 (remote (snd (@ensureCaddyServerExists _ Sample.remote_api Sample.env
                                 Sample.opt_twice "app.localhost" Sample.blank)))
               = Some [":443"; ":443"]) by (vm_compute; reflexivity).
  assert (H2 : Store.at_listen "vite-dev"
                 (remote (snd (@ensureCaddyServerExists _ Sample.remote_api Sample.env
                                 Sample.opt_twice "app.localhost"
                                 (snd (@ensureCaddyServerExists _ Sample.remote_api
                                         Sample.env Sample.opt_twice "app.localhost"
                                         Sample.blank)))))
               = Some [":443"]) by (vm_compute; reflexivity).
  split; [vm_compute; reflexivity|].
  split; [vm_compute; reflexivity|].
  split; [exact H1|]. split; [exact H2|].
  intros Heq. rewrite Heq, H1 in H2. discriminate.
Qed.

(** C3, amended: when the desired listen list names no address twice,
    the bootstrap is idempotent on the configuration store: for every
    starting tree, unset or not, the first run returns and a second run
    from the tree it left returns with that very tree; no policy and no
    listen entry is added by the second run. *)
Theorem bootstrap_idempotent (env : Env) (opt : InternalOptions)
    (array_put : Z -> CaddyRoute -> list CaddyRoute -> option (list CaddyRoute))
    (domain : string) (w : World Store.state) :
  NoDup (opt_listen opt) ->
  let run := @ensureCaddyServerExists _ (store_remote (serverId opt) array_put)
               env opt domain in
  exists w1, run w = (Ok tt, w1) /\ run w1 = (Ok tt, w1).
Proof.
  intros Hnd run. destruct w as [s closed]. unfold run.
  rewrite ensureCaddyServerExists_store. eexists. split; [reflexivity|].
  rewrite ensureCaddyServerExists_store. now rewrite (bootstrap_again opt domain s Hnd).
Qed.

Lemma bootstrap_idempotent_witness :
  exists w1,
    @ensureCaddyServerExists _ Sample.remote_api Sample.env Sample.opt "app.localhost"
       Sample.blank = (Ok tt, w1)
    /\ @ensureCaddyServerExists _ Sample.remote_api Sample.env Sample.opt "app.localhost"
         w1 = (Ok tt, w1).
Proof.
  apply (bootstrap_idempotent Sample.env Sample.opt Sample.overwrite "app.localhost"
           Sample.blank).
  apply (bool_decide_unpack (NoDup (opt_listen Sample.opt))). vm_compute. exact I.
Defined.

Lemma existsb_references (d : string) (ps : list Policy) :
  existsb (covers d) ps = true <-> exists p, p ∈ ps /\ references d p.
Proof.
  rewrite existsb_exists. split.
  - intros (p & Hp & Hc). exists p. split; [now apply list_elem_of_In|].
    now apply OutcomeFacts.covers_references.
  - intros (p & Hp & Hr). exists p. split; [now apply list_elem_of_In|].
    now apply OutcomeFacts.covers_references.
Qed.

Lemma filter_none (d : string) (ps : list Policy) :
  existsb (covers d) ps = false -> List.filter (covers d) ps = [].
Proof.
  induction ps as [|p ps IH]; cbn; [reflexivity|].
  destruct (covers d p); cbn; [discriminate | exact IH].
Qed.

Lemma filter_some (d : string) (ps : list Policy) :
  existsb (covers d) ps = true -> (1 <= length (List.filter (covers d) ps))%nat.
Proof.
  induction ps as [|p ps IH]; cbn; [discriminate|].
  destruct (covers d p); cbn; [lia | exact IH].
Qed.

(** C4, as stated, fails in its last part: when two entries already
    reference the domain with the internal issuer, [ensureTlsPolicy]
    appends nothing and removes nothing, and two such entries remain. *)
Lemma ensureTlsPolicy_keeps_two :
  let w := {| remote := Some Sample.config_two_policies; server_closed := false |} in
  fst (@ensureTlsPolicy _ Sample.remote_api Sample.env Sample.opt "app.localhost" w)
  = Ok tt
  /\ length (List.filter (covers "app.localhost")
               (default [] (Store.at_policies
                  (remote (snd (@ensureTlsPolicy _ Sample.remote_api Sample.env
                                  Sample.opt "app.localhost" w))))))
     = 2%nat.
Proof. split; vm_compute; reflexivity. Qed.

(** C4, amended: for every starting policies list (in a tree that is
    set), [ensureTlsPolicy] appends the entry
    [{subjects: [domain], issuers: [{module: "internal"}]}] if and only
    if no existing entry has a subjects list containing the domain and
    an issuers list containing an internal issuer; all pre-existing
    entries are kept unchanged and in order; afterwards at least one
    entry references the domain with the internal issuer, and exactly
    one when at most one did before. *)
Theorem ensureTlsPolicy_appends_when_missing (env : Env) (opt : InternalOptions)
    (array_put : Z -> CaddyRoute -> list CaddyRoute -> option (list CaddyRoute))
    (domain : string) (c : Config) (closed : bool) :
  let before := default [] (Store.at_policies (Some c)) in
  exists w',
    @ensureTlsPolicy _ (store_remote (serverId opt) array_put) env opt domain
       {| remote := Some c; server_closed := closed |} = (Ok tt, w')
    /\ let after := default [] (Store.at_policies (remote w')) in
       ((exists p, p ∈ before /\ references domain p) -> after = before)
       /\ (~ (exists p, p ∈ before /\ references domain p) ->
           after = (before ++ [ {| subjects := Some [domain];
                                   issuers := Some [ {| module_ := Some "internal" |} ] |} ])%list)
       /\ (exists p, p ∈ after /\ references domain p)
       /\ ((length (List.filter (covers domain) before) <= 1)%nat ->
           length (List.filter (covers domain) after) = 1%nat).
Proof.
  intros before. eexists. split; [apply ensureTlsPolicy_store|].
  cbn [remote]. rewrite at_policies_with_tls. cbn [default from_option id].
  fold before. rewrite OutcomeFacts.policies_after_cases.
  destruct (existsb (covers domain) before) eqn:E.
  - assert (Hex : exists p, p ∈ before /\ references domain p)
      by now apply existsb_references.
    split; [reflexivity|]. split; [intros Hno; contradiction|].
    split; [exact Hex|].
    intros Hle. pose proof (filter_some domain before E). lia.
  - assert (Hno : ~ exists p, p ∈ before /\ references domain p).
    { intros Hex. apply existsb_references in Hex. congruence. }
    split; [intros Hex; contradiction|]. split; [reflexivity|]. split.
    + exists (internal_policy domain). split.
      * apply elem_of_app. right. apply list_elem_of_singleton. reflexivity.
      * apply OutcomeFacts.covers_references, OutcomeFacts.covers_internal_policy.
    + intros _. rewrite List.filter_app, (filter_none domain before E).
      cbn [List.filter app]. now rewrite OutcomeFacts.covers_internal_policy.
Qed.

Lemma ensureTlsPolicy_appends_when_missing_witness :
  default [] (Store.at_policies
     (remote (snd (@ensureTlsPolicy _ Sample.remote_api Sample.env Sample.opt
                     "app.localhost"
                     {| remote := Some Sample.config_8080; server_closed := false |}))))
  = [internal_policy "app.localhost"].
Proof.
  destruct (ensureTlsPolicy_appends_when_missing Sample.env Sample.opt Sample.overwrite
              "app.localhost" Sample.config_8080 false)
    as (w' & Hrun & _ & Happend & _).
  unfold Sample.remote_api. cbn [serverId Sample.opt] in Hrun. rewrite Hrun.
  cbn [snd]. apply Happend.
  intros (p & Hp & _). vm_compute in Hp. inversion Hp.
Defined.

(** C5: when the managed server already exists, the listen list after
    the bootstrap is the union, in first-seen order, of the current
    addresses and the desired ones; the node is left as it was when
    that union equals the current list and holds the union otherwise;
    so an address is present afterwards exactly when it was present
    before or is desired. *)
Theorem bootstrap_merges_listen (env : Env) (opt : InternalOptions)
    (array_put : Z -> CaddyRoute -> list CaddyRoute -> option (list CaddyRoute))
    (domain : string) (c : Config) (closed : bool) (sv : Server) :
  Store.at_server (serverId opt) (Some c) = Some sv ->
  let current := default [] (listen sv) in
  let union := set_of (current ++ set_of (opt_listen opt)) in
  exists w',
    @ensureCaddyServerExists _ (store_remote (serverId opt) array_put) env opt domain
       {| remote := Some c; server_closed := closed |} = (Ok tt, w')
    /\ let after := Store.at_listen (serverId opt) (remote w') in
       default [] after = union
       /\ (union = current -> after = listen sv)
       /\ (union <> current -> after = Some union)
       /\ (arraysEqual current union = true <-> union = current)
       /\ (forall a, a ∈ default [] after <-> a ∈ current \/ a ∈ opt_listen opt)
       /\ NoDup (default [] after).
Proof.
  intros Hsv current union. eexists. split; [apply ensureCaddyServerExists_store|].
  cbn [remote]. unfold Store.at_listen. rewrite at_server_bootstrap, Hsv.
  cbn [mbind option_bind Outcome.reconciled_server listen].
  fold current. unfold Outcome.merged_listen. fold current. fold union.
  assert (Hiff : arraysEqual current union = true <-> union = current).
  { rewrite SetFacts.arraysEqual_eq. split; congruence. }
  assert (Hview : default [] (if arraysEqual current union then listen sv else Some union)
                  = union).
  { destruct (arraysEqual current union) eqn:E; [|reflexivity].
    apply SetFacts.arraysEqual_eq in E. fold current. congruence. }
  split; [exact Hview|].
  split; [intros Hu; apply Hiff in Hu; now rewrite Hu|].
  split; [intros Hu; destruct (arraysEqual current union) eqn:E;
          [apply SetFacts.arraysEqual_eq in E; congruence | reflexivity]|].
  split; [exact Hiff|].
  rewrite Hview. split.
  - intros a. unfold union. rewrite SetFacts.set_of_elem_of, elem_of_app.
    now rewrite SetFacts.set_of_elem_of.
  - apply SetFacts.set_of_NoDup.
Qed.

Lemma bootstrap_merges_listen_witness :
  Store.at_listen "vite-dev"
    (remote (snd (@ensureCaddyServerExists _ Sample.remote_api Sample.env Sample.opt
                    "app.localhost"
                    {| remote := Some Sample.config_8080; server_closed := false |})))
  = Some [":8080"; ":443"; ":80"].
Proof.
  destruct (bootstrap_merges_listen Sample.env Sample.opt Sample.overwrite
              "app.localhost" Sample.config_8080 false
              {| listen := Some [":8080"]; routes := Some [];
                 automatic_https := None; server_others := [] |}
              ltac:(vm_compute; reflexivity))
    as (w' & Hrun & _ & _ & Hwrite & _).
  unfold Sample.remote_api. cbn [serverId Sample.opt] in Hrun. rewrite Hrun.
  cbn [snd]. etransitivity;
    [apply Hwrite; vm_compute; discriminate | vm_compute; reflexivity].
Defined.

(** * Further properties of the module *)

(** ** Route lookup *)

Lemma route_matches_spec (r : CaddyRoute) (h : string) :
  route_matches r h = true
  <-> exists (ms : list Matcher) (m : Matcher) (hs : list string),
        match_ r = Some ms /\ m ∈ ms /\ host m = Some hs /\ h ∈ hs.
Proof.
  unfold route_matches. rewrite existsb_exists. split.
  - intros (m & Hm & Hh). destruct (match_ r) as [ms|]; [|destruct Hm].
    destruct (host m) as [hs|] eqn:Hhost; [|discriminate].
    exists ms, m, hs. repeat split; auto.
    + now apply list_elem_of_In.
    + now apply SetFacts.includes_elem_of.
  - intros (ms & m & hs & -> & Hm & Hhost & Hh). exists m.
    split; [now apply list_elem_of_In|]. rewrite Hhost.
    now apply SetFacts.includes_elem_of.
Qed.

Lemma findRouteFrom_first (rs : list CaddyRoute) (h : string) (k i : Z) (r : CaddyRoute) :
  findRouteFrom k rs h = (Some r, i) ->
  forall (j : nat) (r' : CaddyRoute),
    (j < Z.to_nat (i - k))%nat -> rs !! j = Some r' -> route_matches r' h = false.
Proof.
  revert k. induction rs as [|x rs IH]; intros k; simpl; [discriminate|].
  destruct (route_matches x h) eqn:Hx.
  - intros [= -> ->] j r' Hj. rewrite Z.sub_diag in Hj. simpl in Hj. lia.
  - intros Hfound j r' Hj Hlook.
    destruct (findRouteFrom_found _ _ _ _ _ Hfound) as (Hle & _ & _).
    destruct j as [|j]; simpl in Hlook.
    + now injection Hlook as <-.
    + apply (IH _ Hfound j r'); [lia | exact Hlook].
Qed.

Lemma findRouteFrom_none (rs : list CaddyRoute) (h : string) (k i : Z) :
  findRouteFrom k rs h = (None, i) ->
  i = (-1)%Z /\ Forall (fun r => route_matches r h = false) rs.
Proof.
  revert k. induction rs as [|x rs IH]; intros k; simpl.
  - intros [= <-]. split; [reflexivity | constructor].
  - destruct (route_matches x h) eqn:Hx; [discriminate|].
    intros Hnone. destruct (IH _ Hnone) as [-> Hall].
    split; [reflexivity | now constructor].
Qed.

(** X1: [findRouteByHost] returns the first route one of whose matchers
    lists the host, with its position: the route stands at the returned
    index and no route before it matches; it returns no route and index
    -1 exactly when the list is absent or no route in it matches. *)
Theorem findRouteByHost_first_match (routes : option (list CaddyRoute)) (h : string) :
  match findRouteByHost routes h with
  | (Some r, i) =>
      exists rs, routes = Some rs /\ (0 <= i)%Z /\ rs !! Z.to_nat i = Some r
        /\ (exists (ms : list Matcher) (m : Matcher) (hs : list string),
              match_ r = Some ms /\ m ∈ ms /\ host m = Some hs /\ h ∈ hs)
        /\ (forall (j : nat) (r' : CaddyRoute),
              (j < Z.to_nat i)%nat -> rs !! j = Some r' -> route_matches r' h = false)
  | (None, i) =>
      i = (-1)%Z
      /\ (forall rs r', routes = Some rs -> r' ∈ rs -> route_matches r' h = false)
  end.
Proof.
  destruct (findRouteByHost routes h) as [[r|] i] eqn:Hfind.
  - destruct (findRouteByHost_found _ _ _ _ Hfind) as (rs & -> & Hi & Hlook & Hm).
    exists rs. repeat split; auto.
    + now apply route_matches_spec.
    + intros j r' Hj. apply (findRouteFrom_first rs h 0 i r Hfind).
      now rewrite Z.sub_0_r.
  - destruct routes as [rs|]; simpl in Hfind.
    + destruct (findRouteFrom_none _ _ _ _ Hfind) as [-> Hall].
      split; [reflexivity|]. intros rs' r' [= <-] Hr'.
      rewrite Forall_forall in Hall. now apply Hall.
    + injection Hfind as <-. split; [reflexivity | discriminate].
Qed.

(** X2: [arraysEqual] decides equality of two string arrays: it is true
    exactly when they are the same list, and false whenever the lengths
    differ or some position differs. *)
Theorem arraysEqual_decides (a b : list string) :
  (arraysEqual a b = true <-> a = b)
  /\ (length a <> length b -> arraysEqual a b = false)
  /\ (forall (i : nat) (x y : string),
        a !! i = Some x -> b !! i = Some y -> x <> y -> arraysEqual a b = false).
Proof.
  split; [apply SetFacts.arraysEqual_eq|]. split.
  - intros Hlen. destruct (arraysEqual a b) eqn:E; [|reflexivity].
    apply SetFacts.arraysEqual_eq in E. subst. contradiction.
  - intros i x y Ha Hb Hxy. destruct (arraysEqual a b) eqn:E; [|reflexivity].
    apply SetFacts.arraysEqual_eq in E. subst. congruence.
Qed.

Lemma arraysEqual_decides_witness :
  arraysEqual [":443"; ":80"] [":80"; ":443"] = false
  /\ arraysEqual [":443"] [":443"; ":80"] = false.
Proof.
  split.
  - apply (proj2 (proj2 (arraysEqual_decides [":443"; ":80"] [":80"; ":443"]))
             0%nat ":443" ":80"); [reflexivity | reflexivity | discriminate].
  - apply (proj1 (proj2 (arraysEqual_decides [":443"] [":443"; ":80"]))).
    simpl. lia.
Defined.

(** ** The URL that is printed *)

Lemma listen_port_of (h : string) (p : N) :
  listen_port (h ++ ":" ++ Str.of_N p) = Some p.
Proof.
  unfold listen_port. rewrite StrFacts.chars_app.
  change (Str.chars (":" ++ Str.of_N p))
    with (":"%char :: Str.chars (Str.of_N p)).
  rewrite PortFacts.colon_digits_at_end_app
    by (apply PortFacts.of_N_nonempty || apply PortFacts.of_N_digits).
  now rewrite PortFacts.to_N_of_N.
Qed.

Lemma omap_listen_port_cons (a : string) (l : list string) :
  omap listen_port (a :: l)
  = match listen_port a with
    | Some p => p :: omap listen_port l
    | None => omap listen_port l
    end.
Proof. reflexivity. Qed.

Lemma existsb_443 (ports : list N) : existsb (N.eqb 443) ports = true <-> 443%N ∈ ports.
Proof.
  rewrite existsb_exists, list_elem_of_In. split.
  - intros (x & Hx & Heq). apply N.eqb_eq in Heq. now subst.
  - intros Hin. exists 443%N. split; [exact Hin | reflexivity].
Qed.

Lemma find_first_other_port (listen : list string) (p : N) :
  List.find (fun q => negb (q =? 80)%N) (omap listen_port listen) = Some p ->
  p <> 80%N
  /\ exists (pre : list string) (a : string) (post : list string),
       listen = (pre ++ a :: post)%list /\ listen_port a = Some p
       /\ Forall (fun b => listen_port b = None \/ listen_port b = Some 80%N) pre.
Proof.
  induction listen as [|a l IH]; [discriminate|].
  rewrite omap_listen_port_cons. destruct (listen_port a) as [q|] eqn:Ha.
  - cbn [List.find]. destruct (N.eqb_spec q 80) as [-> | Hq]; cbn [negb].
    + intros Hfind. destruct (IH Hfind) as (Hp & pre & b & post & -> & Hb & Hpre).
      split; [exact Hp|]. exists (a :: pre), b, post.
      repeat split; auto.
    + intros [= <-]. split; [exact Hq|]. exists [], a, l. repeat split; auto.
  - intros Hfind. destruct (IH Hfind) as (Hp & pre & b & post & -> & Hb & Hpre).
    split; [exact Hp|]. exists (a :: pre), b, post. repeat split; auto.
Qed.

Lemma find_no_other_port (listen : list string) :
  List.find (fun q => negb (q =? 80)%N) (omap listen_port listen) = None
  <-> forall a p, a ∈ listen -> listen_port a = Some p -> p = 80%N.
Proof.
  split.
  - intros Hnone a p Ha Hp.
    assert (Hin : In p (omap listen_port listen)).
    { apply list_elem_of_In, list_elem_of_omap. eauto. }
    pose proof (List.find_none _ _ Hnone p Hin) as Hneg. cbn in Hneg.
    destruct (N.eqb_spec p 80); [assumption | discriminate].
  - intros Hall. destruct (List.find _ _) as [p|] eqn:Hfind; [|reflexivity].
    destruct (find_first_other_port _ _ Hfind) as (Hne & pre & a & post & -> & Ha & _).
    exfalso. apply Hne, (Hall a p); [|exact Ha].
    apply elem_of_app. right. left.
Qed.

(** X3: [pickHttpsPort] returns 443 as soon as some listen address ends
    in [:443], wherever it stands; otherwise the port of the first
    address, in listing order, whose port is not 80; it never returns
    80, only returns a port that some address carries, and returns none
    exactly when every port that can be read is 80. *)
Theorem pickHttpsPort_choice (listen : list string) :
  (forall a, a ∈ listen -> listen_port a = Some 443%N ->
     pickHttpsPort listen = Some 443%N)
  /\ (forall p, pickHttpsPort listen = Some p ->
        p <> 80%N /\ exists a, a ∈ listen /\ listen_port a = Some p)
  /\ (forall p, pickHttpsPort listen = Some p -> p <> 443%N ->
        exists (pre : list string) (a : string) (post : list string),
          listen = (pre ++ a :: post)%list /\ listen_port a = Some p
          /\ Forall (fun b => listen_port b = None \/ listen_port b = Some 80%N) pre)
  /\ (pickHttpsPort listen = None
      <-> forall a p, a ∈ listen -> listen_port a = Some p -> p = 80%N)
  /\ (forall (h : string) (p : N), listen_port (h ++ ":" ++ Str.of_N p) = Some p).
Proof.
  unfold pickHttpsPort.
  destruct (existsb (N.eqb 443) (omap listen_port listen)) eqn:E443.
  - apply existsb_443, list_elem_of_omap in E443 as (a0 & Ha0 & Hp0).
    split; [reflexivity|]. split; [|split; [|split]].
    + intros p [= <-]. split; [discriminate | eauto].
    + intros p [= <-] Hne. contradiction.
    + split; [discriminate|]. intros Hall.
      specialize (Hall a0 _ Ha0 Hp0). discriminate.
    + apply listen_port_of.
  - split; [|split; [|split; [|split]]].
    + intros a Ha Hp. exfalso.
      assert (H443 : existsb (N.eqb 443) (omap listen_port listen) = true).
      { apply existsb_443, list_elem_of_omap. eauto. }
      congruence.
    + intros p Hfind.
      destruct (find_first_other_port _ _ Hfind) as (Hne & pre & a & post & -> & Ha & _).
      split; [exact Hne|]. exists a. split; [|exact Ha].
      apply elem_of_app. right. left.
    + intros p Hfind _. now destruct (find_first_other_port _ _ Hfind).
    + apply find_no_other_port.
    + apply listen_port_of.
Qed.

Lemma pickHttpsPort_choice_witness :
  pickHttpsPort [":80"; ":443"; ":8443"] = Some 443%N.
Proof.
  apply (proj1 (pickHttpsPort_choice [":80"; ":443"; ":8443"]) ":443").
  - apply list_elem_of_In. simpl. tauto.
  - reflexivity.
Defined.

(** X4: the URL printed by [printWhereToBrowse] is [https://{domain}]
    without a port when some listen address ends in [:443] or when no
    address carries a port other than 80, and
    [https://{domain}:{port}] with the port picked by [pickHttpsPort]
    otherwise (a picked port 0 is not printed). *)
Theorem printWhereToBrowse_url (opt : InternalOptions) (d : string) :
  ((exists a, a ∈ opt_listen opt /\ listen_port a = Some 443%N) ->
     printWhereToBrowse opt d = "https://" ++ d)
  /\ ((forall a p, a ∈ opt_listen opt -> listen_port a = Some p -> p = 80%N) ->
      printWhereToBrowse opt d = "https://" ++ d)
  /\ (forall p, pickHttpsPort (opt_listen opt) = Some p -> p <> 443%N -> p <> 0%N ->
        printWhereToBrowse opt d = "https://" ++ d ++ ":" ++ Str.of_N p)
  /\ (pickHttpsPort (opt_listen opt) = Some 0%N ->
      printWhereToBrowse opt d = "https://" ++ d).
Proof.
  destruct (pickHttpsPort_choice (opt_listen opt)) as (H443 & _ & _ & Hnone & _).
  unfold printWhereToBrowse. repeat split.
  - intros (a & Ha & Hp). now rewrite (H443 a Ha Hp).
  - intros Hall. apply Hnone in Hall. now rewrite Hall.
  - intros p -> Hne H0. destruct p as [|p]; [contradiction|].
    cbn [truthy_port]. destruct (N.eqb_spec (N.pos p) 443); [contradiction|reflexivity].
  - intros ->. reflexivity.
Qed.

Lemma printWhereToBrowse_url_witness :
  printWhereToBrowse Sample.opt "app.localhost" = "https://app.localhost"
  /\ printWhereToBrowse Sample.opt_twice "app.localhost" = "https://app.localhost".
Proof.
  split.
  - apply (proj1 (printWhereToBrowse_url Sample.opt "app.localhost")).
    exists ":443". split; [apply list_elem_of_In; simpl; tauto | reflexivity].
  - apply (proj1 (printWhereToBrowse_url Sample.opt_twice "app.localhost")).
    exists ":443". split; [apply list_elem_of_In; simpl; tauto | reflexivity].
Defined.

(** ** Slugs from the manifest *)

Lemma drop_while_stop (p : ascii -> bool) (l : list ascii) :
  match l with [] => True | c :: _ => p c = false end -> Str.drop_while p l = l.
Proof. destruct l as [|c l]; [reflexivity|]. simpl. now intros ->. Qed.


Lemma not_hyphen (c : ascii) : Some c <> Some "-"%char -> Str.is_hyphen c = false.
Proof.
  intros Hc. unfold Str.is_hyphen. destruct (Ascii.eqb_spec c "-"); [|reflexivity].
  subst. contradiction.
Qed.

Lemma strip_hyphens_id (l : list ascii) :
  head l <> Some "-"%char -> last l <> Some "-"%char -> Str.strip_hyphens l = l.
Proof.
  intros Hhead Hlast. unfold Str.strip_hyphens.
  rewrite (drop_while_stop Str.is_hyphen l).
  - rewrite (drop_while_stop Str.is_hyphen (rev l)); [apply rev_involutive|].
    pose proof (StrFacts.head_rev_last l) as Hrev.
    destruct (rev l) as [|c t]; [exact I|]. simpl in Hrev.
    apply not_hyphen. now rewrite Hrev.
  - destruct l as [|c t]; [exact I|]. now apply not_hyphen.
Qed.

Lemma slugify_chars (s : string) :
  Forall (fun c => Str.slug_char c = true) (Str.chars (Str.slugify s))
  /\ head (Str.chars (Str.slugify s)) <> Some "-"%char
  /\ last (Str.chars (Str.slugify s)) <> Some "-"%char.
Proof.
  unfold Str.slugify. rewrite StrFacts.chars_pack. split; [|split].
  - apply StrFacts.strip_hyphens_Forall, StrFacts.replace_runs_from_slug.
  - apply StrFacts.strip_hyphens_head.
  - apply StrFacts.strip_hyphens_last.
Qed.

Lemma slugify_again (s : string) : Str.slugify (Str.slugify s) = Str.slugify s.
Proof.
  destruct (slugify_chars s) as (Hall & Hhead & Hlast).
  unfold Str.slugify at 1.
  rewrite (StrFacts.toLowerCase_slug _ Hall), (StrFacts.replace_runs_keep _ Hall).
  rewrite (strip_hyphens_id _ Hhead Hlast). apply StrFacts.pack_chars.
Qed.

(** X5: whatever the manifest holds, [slugFromPkg] returns a slug: only
    characters of [[a-z0-9-]], no hyphen at either end, and slugging it
    again changes nothing. It is the slug of the manifest's name when
    that is a string, and the folder slug both when the manifest cannot
    be read or parsed and when it has no string name. *)
Theorem slugFromPkg_slug (env : Env) (cwd : option string) :
  let dir := default (deno_cwd env) cwd in
  let slug := slugFromPkg env cwd in
  Forall (fun c => Str.slug_char c = true) (Str.chars slug)
  /\ head (Str.chars slug) <> Some "-"%char
  /\ last (Str.chars slug) <> Some "-"%char
  /\ Str.slugify slug = slug
  /\ (forall name, read_pkg env dir = PkgName name -> slug = Str.slugify name)
  /\ (read_pkg env dir = PkgFails \/ read_pkg env dir = PkgNoName ->
      slug = slugFromFolder env cwd).
Proof.
  intros dir slug.
  assert (Hform : exists s, slug = Str.slugify s).
  { unfold slug, slugFromPkg, slugFromFolder. fold dir.
    destruct (read_pkg env dir); eauto. }
  destruct Hform as [s Hs].
  destruct (slugify_chars s) as (Hall & Hhead & Hlast). rewrite <- Hs in *.
  split; [exact Hall|]. split; [exact Hhead|]. split; [exact Hlast|].
  split; [rewrite Hs; apply slugify_again|].
  split.
  - intros name Hname. unfold slug, slugFromPkg. fold dir. now rewrite Hname.
  - intros [Hread | Hread]; unfold slug, slugFromPkg; fold dir; rewrite Hread;
      unfold slugFromFolder; cbn [default from_option id]; fold dir;
      [reflexivity | apply slugify_again].
Qed.

Lemma slugFromPkg_slug_witness :
  slugFromPkg Sample.env (Some "/srv/My Shop") = "my-shop".
Proof.
  etransitivity.
  - apply (slugFromPkg_slug Sample.env (Some "/srv/My Shop")). left. reflexivity.
  - reflexivity.
Defined.

(** ** Port extraction on arbitrary routes *)






(** ** The hosts check *)

Module HostsFacts.

Import Str Text.
Local Open Scope char_scope.

Lemma endsWith_local (s : string) : endsWith (s ++ ".local") ".local" = true.
Proof.
  unfold endsWith. rewrite StrFacts.chars_app, rev_app_distr. reflexivity.
Qed.

Lemma endsWith_localhost (s : string) : endsWith (s ++ ".localhost") ".local" = false.
Proof.
  unfold endsWith. rewrite StrFacts.chars_app, rev_app_distr. reflexivity.
Qed.

Lemma trim_stop (l : list ascii) :
  match l with [] => True | c :: _ => is_space c = false end ->
  match last l with None => True | Some c => is_space c = false end ->
  trim l = l.
Proof.
  intros Hhead Hlast. unfold trim. rewrite (drop_while_stop is_space l Hhead).
  rewrite (drop_while_stop is_space (rev l)); [apply rev_involutive|].
  pose proof (StrFacts.head_rev_last l) as Hrev.
  destruct (rev l) as [|c t]; [exact I|].
  simpl in Hrev. now rewrite <- Hrev in Hlast.
Qed.

Lemma lines_from_word (w rest cur : list ascii) :
  Forall (fun c => Ascii.eqb c "010" = false) w ->
  lines_from cur (w ++ rest) = lines_from (rev w ++ cur) rest.
Proof.
  intros Hw. revert cur. induction Hw as [|c w Hc _ IH]; intros cur; [reflexivity|].
  simpl. rewrite Hc, IH. now rewrite <- app_assoc.
Qed.

Lemma lines_from_later (p q cur x : list ascii) :
  In x (lines_from [] q) -> In x (lines_from cur (p ++ "010" :: q)).
Proof.
  intros Hx. revert cur. induction p as [|c p IH]; intros cur; simpl.
  - now right.
  - destruct (Ascii.eqb c "010"); [right|]; apply IH.
Qed.

Lemma drop_cr_keep (c : ascii) (r : list ascii) :
  is_space c = false -> drop_cr (c :: r) = c :: r.
Proof.
  intros Hc. unfold drop_cr. destruct (Ascii.eqb_spec c "013"); [|reflexivity].
  subst. discriminate.
Qed.

(** A line without a newline that ends in a printing character is one
    of the lines, whether the text ends after it or a line break
    follows. *)
Lemma lines_from_line (line after : list ascii) :
  Forall (fun c => Ascii.eqb c "010" = false) line ->
  match last line with None => False | Some c => is_space c = false end ->
  after = [] \/ (exists a, after = "010" :: a) \/ (exists a, after = "013" :: "010" :: a) ->
  In line (lines_from [] (line ++ after)).
Proof.
  intros Hline Hlast Hafter. rewrite (lines_from_word _ _ _ Hline), app_nil_r.
  pose proof (StrFacts.head_rev_last line) as Hrev.
  destruct (rev line) as [|c r] eqn:E.
  { simpl in Hrev. rewrite <- Hrev in Hlast. contradiction. }
  simpl in Hrev. rewrite <- Hrev in Hlast.
  assert (Hback : rev (c :: r) = line) by (rewrite <- E; apply rev_involutive).
  destruct Hafter as [-> | [[a ->] | [a ->]]].
  - left. exact Hback.
  - cbn -[drop_cr rev]. left. now rewrite (drop_cr_keep c r Hlast).
  - cbn -[rev]. left. exact Hback.
Qed.

Lemma fields_from_word (w rest cur : list ascii) (b : bool) :
  w <> [] -> Forall (fun c => is_space c = false) w ->
  fields_from cur b (w ++ rest) = fields_from (rev w ++ cur) false rest.
Proof.
  intros Hne Hw. revert cur b. induction Hw as [|c w Hc Hw IH]; intros cur b;
    [contradiction|].
  simpl. rewrite Hc. destruct w as [|d w].
  - reflexivity.
  - rewrite IH by discriminate. now rewrite <- app_assoc.
Qed.

Lemma fields_from_skip (gs rest : list ascii) :
  Forall (fun c => is_space c = true) gs ->
  fields_from [] true (gs ++ rest) = fields_from [] true rest.
Proof. induction 1 as [|c gs Hc _ IH]; [reflexivity|]. simpl. now rewrite Hc. Qed.

Lemma fields_from_gap (gap rest cur : list ascii) :
  gap <> [] -> Forall (fun c => is_space c = true) gap ->
  fields_from cur false (gap ++ rest) = rev cur :: fields_from [] true rest.
Proof.
  intros Hne Hgap. destruct Hgap as [|c gs Hc Hgs]; [contradiction|].
  simpl. rewrite Hc. now rewrite fields_from_skip.
Qed.

Lemma split_ws_entry (addr gap name : list ascii) :
  addr <> [] -> Forall (fun c => is_space c = false) addr ->
  gap <> [] -> Forall (fun c => is_space c = true) gap ->
  name <> [] -> Forall (fun c => is_space c = false) name ->
  split_ws (addr ++ gap ++ name) = [addr; name].
Proof.
  intros Ha Haddr Hg Hgap Hn Hname. unfold split_ws.
  rewrite (fields_from_word addr _ [] false Ha Haddr), app_nil_r.
  rewrite (fields_from_gap gap name _ Hg Hgap), rev_involutive.
  rewrite <- (app_nil_r name) at 1.
  rewrite (fields_from_word name [] [] true Hn Hname), app_nil_r.
  simpl. now rewrite rev_involutive.
Qed.

Lemma not_space_not_newline (c : ascii) :
  is_space c = false -> Ascii.eqb c "010" = false.
Proof.
  intros Hc. destruct (Ascii.eqb_spec c "010"); [|reflexivity]. subst. discriminate.
Qed.

Lemma starts_with_hash (c : ascii) (l : list ascii) :
  Some c <> Some "#" -> starts_with (chars "#") (c :: l) = false.
Proof.
  intros Hc. change (starts_with (chars "#") (c :: l)) with (Ascii.eqb "#" c && true).
  destruct (Ascii.eqb_spec "#" c) as [<- | _]; [contradiction | reflexivity].
Qed.

End HostsFacts.

(** X7: [checkHostsForLocal] only looks at the hosts file for domains
    that end in [.local]: for any other domain, such as every
    [{slug}.localhost] and so every domain [computeDomain] builds with
    the default tld, it warns about nothing whatever the file holds or
    whether it can be read; for a [.local] domain an unreadable file
    gives the could-not-read warning, and a readable one gives either
    nothing or the missing-entry warning. *)
Theorem checkHostsForLocal_scope (hosts : option string) (s : string) :
  checkHostsForLocal hosts (s ++ ".localhost") = None
  /\ (forall d, Text.endsWith d ".local" = false -> checkHostsForLocal hosts d = None)
  /\ (forall (env : Env) (options : DomainOptions),
        o_domain options = None -> o_tld options = None ->
        checkHostsForLocal hosts (computeDomain env options) = None)
  /\ checkHostsForLocal None (s ++ ".local") = Some (UnreadableHosts (s ++ ".local"))
  /\ (forall text,
        checkHostsForLocal (Some text) (s ++ ".local") = None
        \/ checkHostsForLocal (Some text) (s ++ ".local")
           = Some (MissingHostsEntry (s ++ ".local"))).
Proof.
  assert (Hother : forall d, Text.endsWith d ".local" = false ->
                             checkHostsForLocal hosts d = None).
  { intros d Hd. unfold checkHostsForLocal. now rewrite Hd. }
  split; [apply Hother, HostsFacts.endsWith_localhost|].
  split; [exact Hother|].
  split.
  - intros env options Hd Ht. unfold computeDomain, truthy_str. rewrite Hd, Ht.
    cbn [default from_option id].
    apply Hother, (HostsFacts.endsWith_localhost
                     (match default folder (o_nameSource options) with
                      | folder => slugFromFolder env (o_cwd options)
                      | pkg => slugFromPkg env (o_cwd options)
                      end)).
  - unfold checkHostsForLocal. rewrite HostsFacts.endsWith_local. cbn [negb].
    split; [reflexivity|]. intros text.
    destruct (existsb _ _); [now left | now right].
Qed.

Lemma checkHostsForLocal_scope_witness :
  checkHostsForLocal None "app.localhost" = None
  /\ checkHostsForLocal None
       (computeDomain Sample.env {| o_domain := None; o_nameSource := None;
                                    o_tld := None; o_cwd := None |}) = None.
Proof.
  split.
  - apply (checkHostsForLocal_scope None "app"). reflexivity.
  - apply (checkHostsForLocal_scope None "app"); reflexivity.
Defined.

(** X8: for a [.local] domain, [checkHostsForLocal] is silent as soon
    as the hosts file has a line made of an address (not starting with
    [#]), white space, and the domain, wherever that line stands and
    whether lines end in LF or CR LF. *)
Theorem checkHostsForLocal_entry_found (before after addr gap : list ascii) (d : string) :
  Text.endsWith d ".local" = true ->
  before = [] \/ last before = Some "010"%char ->
  after = [] \/ (exists a, after = "010"%char :: a)
    \/ (exists a, after = "013"%char :: "010"%char :: a) ->
  addr <> [] -> Forall (fun c => Str.is_space c = false) addr ->
  head addr <> Some "#"%char ->
  gap <> [] ->
  Forall (fun c => Str.is_space c = true /\ Ascii.eqb c "010" = false) gap ->
  Forall (fun c => Str.is_space c = false) (Str.chars d) ->
  checkHostsForLocal (Some (Str.pack (before ++ addr ++ gap ++ Str.chars d ++ after))) d
  = None.
Proof.
  intros Hlocal Hbefore Hafter Ha Haddr Hhash Hg Hgap Hd.
  assert (Hdne : Str.chars d <> []).
  { intros Hempty. unfold Text.endsWith in Hlocal. rewrite Hempty in Hlocal.
    discriminate. }
  assert (Hgap_space : Forall (fun c => Str.is_space c = true) gap)
    by (eapply Forall_impl; [exact Hgap | now intros c [? _]]).
  set (line := (addr ++ gap ++ Str.chars d)%list).
  assert (Hlast : match last line with None => False | Some c => Str.is_space c = false end).
  { unfold line. rewrite !last_app.
    destruct (last (Str.chars d)) as [c|] eqn:El.
    - apply Forall_forall with (x := c) in Hd; [exact Hd|].
      apply last_Some_elem_of in El. exact El.
    - apply last_None in El. contradiction. }
  assert (Hnames : hosts_line_names d line = true).
  { unfold hosts_line_names. rewrite HostsFacts.trim_stop.
    - destruct addr as [|a0 addr']; [contradiction|].
      unfold line.
      change ((a0 :: addr') ++ gap ++ Str.chars d)%list
        with (a0 :: (addr' ++ gap ++ Str.chars d))%list at 1.
      rewrite (HostsFacts.starts_with_hash a0 _ Hhash).
      rewrite HostsFacts.split_ws_entry by assumption.
      cbn [tail List.map includes existsb]. rewrite StrFacts.pack_chars.
      now rewrite String.eqb_refl.
    - unfold line. destruct addr as [|a0 addr']; [contradiction|].
      simpl. now inversion Haddr.
    - destruct (last line); [exact Hlast | exact I]. }
  assert (Hline : Forall (fun c => Ascii.eqb c "010" = false) line).
  { unfold line. rewrite !Forall_app. repeat split.
    - eapply Forall_impl; [exact Haddr | apply HostsFacts.not_space_not_newline].
    - eapply Forall_impl; [exact Hgap | now intros c [_ ?]].
    - eapply Forall_impl; [exact Hd | apply HostsFacts.not_space_not_newline]. }
  assert (Hin : In line (Text.split_lines (before ++ line ++ after))).
  { pose proof (HostsFacts.lines_from_line line after Hline Hlast Hafter) as Hhere.
    unfold Text.split_lines. destruct Hbefore as [-> | Hb]; [exact Hhere|].
    destruct before as [|b0 b'] using rev_ind; [discriminate|]. clear IHb'.
    rewrite last_snoc in Hb. injection Hb as ->.
    rewrite <- app_assoc. now apply HostsFacts.lines_from_later. }
  unfold checkHostsForLocal. rewrite Hlocal. cbn [negb].
  rewrite StrFacts.chars_pack.
  replace (before ++ addr ++ gap ++ Str.chars d ++ after)%list
    with (before ++ line ++ after)%list
    by (unfold line; now rewrite <- !app_assoc).
  assert (Hex : existsb (hosts_line_names d) (Text.split_lines (before ++ line ++ after))
                = true) by (apply existsb_exists; eauto).
  now rewrite Hex.
Qed.

Lemma checkHostsForLocal_entry_found_witness :
  checkHostsForLocal
    (Some (String "035" ("hosts" ++ String "010" ("127.0.0.1  app.local"
                                                  ++ String "013" (String "010" "")))))
    "app.local" = None.
Proof.
  apply (checkHostsForLocal_entry_found
           (Str.chars (String "035" ("hosts" ++ String "010" "")))
           (Str.chars (String "013" (String "010" "")))
           (Str.chars "127.0.0.1") (Str.chars "  ") "app.local").
  - reflexivity.
  - right. reflexivity.
  - right. right. eexists. reflexivity.
  - discriminate.
  - repeat constructor.
  - discriminate.
  - discriminate.
  - repeat constructor.
  - repeat constructor.
Defined.

(** ** Reconciliation: the remaining branches, for any remote *)

Section Branches.

Context {R : Type} `{Remote R}.
Variable env : Env.
Variable opt : InternalOptions.














Lemma exit_bind {A B} (c : M R A) (k : A -> M R B) (w : World R) (n : Z) :
  returns_or_throws c ->
  fst (bind c k w) = Exit n ->
  exists a w', c w = (Ok a, w') /\ fst (k a w') = Exit n.
Proof.
  intros Hc. unfold bind. specialize (Hc w).
  destruct (c w) as [[a|e|m] w']; cbn [fst] in *.
  - eauto.
  - discriminate.
  - now destruct (Hc m).
Qed.





End Branches.

(** X9: setup failures. When the port of the development server cannot
    be read (absent or 0), [wireDomain] throws before sending any
    request; when the bootstrap throws, [wireDomain] throws the same
    error and sends nothing after it; and the [listening] callback of
    [configureServer] lets no thrown error out: it returns normally, in
    the world [wireDomain] left. *)
Theorem wireDomain_failures {R : Type} `{Remote R} (env : Env) (opt : InternalOptions)
    (server : DevServer) (w : World R) :
  (truthy_port (dev_port server) = None ->
     wireDomain env opt server w
     = (Throw (Error "Unable to determine Vite dev server port"), w))
  /\ (forall (P : N) (e : Failure) (w' : World R),
        truthy_port (dev_port server) = Some P ->
        ensureCaddyServerExists env opt (_computeDomain env opt) w = (Throw e, w') ->
        wireDomain env opt server w = (Throw e, w'))
  /\ (forall e, fst (on_listening env opt server w) <> Throw e)
  /\ snd (on_listening env opt server w) = snd (wireDomain env opt server w)
  /\ (forall e, fst (wireDomain env opt server w) = Throw e ->
        fst (on_listening env opt server w) = Ok tt).
Proof.
  split; [|split; [|split; [|split]]].
  - intros Hport. unfold wireDomain. now rewrite Hport.
  - intros P e w' Hport Hboot. unfold wireDomain. rewrite Hport.
    unfold bind at 1. now rewrite Hboot.
  - intros e. unfold on_listening.
    destruct (wireDomain env opt server w) as [[[]|e'|n] w']; discriminate.
  - unfold on_listening.
    destruct (wireDomain env opt server w) as [[[]|e'|n] w']; reflexivity.
  - intros e. unfold on_listening.
    destruct (wireDomain env opt server w) as [[[]|e'|n] w']; cbn; congruence.
Qed.

Lemma wireDomain_failures_witness :
  @wireDomain _ Scenario.down_api Sample.env Sample.opt Scenario.no_port Scenario.down
  = (Throw (Error "Unable to determine Vite dev server port"), Scenario.down)
  /\ @wireDomain _ Scenario.down_api Sample.env Sample.opt Sample.dev Scenario.down
     = (Throw (Error (Http.failure_message "http://127.0.0.1:2019/load"
                        (@Scenario.bad_gateway unit))), Scenario.down).
Proof.
  split.
  - apply (@wireDomain_failures _ Scenario.down_api Sample.env Sample.opt
             Scenario.no_port Scenario.down). reflexivity.
  - apply (proj1 (proj2 (@wireDomain_failures _ Scenario.down_api Sample.env Sample.opt
                            Sample.dev Scenario.down)) 5173%N);
      vm_compute; reflexivity.
Defined.







(** X13: when the route's upstream port is alive and either equals the
    local port or the conflict policy is permissive, [wireDomain] sends
    no write and returns normally, leaving the remote as the bootstrap
    left it and the development server open. *)
Theorem wireDomain_leaves_live_route {R : Type} `{Remote R} (env : Env)
    (opt : InternalOptions) (server : DevServer) (w w1 : World R) (P E : N)
    (routes : option (list CaddyRoute)) (r : CaddyRoute) (i : Z) :
  truthy_port (dev_port server) = Some P ->
  ensureCaddyServerExists env opt (_computeDomain env opt) w = (Ok tt, w1) ->
  fst (getRoutes env opt w1) = Ok routes ->
  findRouteByHost routes (_computeDomain env opt) = (Some r, i) ->
  extractUpstreamPort r = Some E ->
  E <> 0%N ->
  isPortActive env E w1 = (Ok true, w1) ->
  E = P \/ failOnActiveDomain opt = false ->
  wireDomain env opt server w = (Ok tt, w1).
Proof.
  intros HP Hboot Hroutes Hfind HE HE0 Hlive Hcase.
  rewrite (wireDomain_decision env opt server w w1 P routes HP Hboot Hroutes).
  rewrite Hfind, HE. destruct E as [|e]; [contradiction|].
  cbn [truthy_port]. unfold bind at 1. rewrite Hlive. cbn iota.
  destruct (N.eqb_spec (N.pos e) P) as [_ | Hne]; [reflexivity|].
  destruct Hcase as [Heq | Hpolicy]; [contradiction|]. now rewrite Hpolicy.
Qed.

Lemma wireDomain_leaves_live_route_witness :
  @wireDomain _ Sample.remote_api Sample.env_alive Scenario.opt_permissive Sample.dev
     (Sample.world_with (Sample.route_to 5174))
  = (Ok tt, Sample.world_with (Sample.route_to 5174)).
Proof.
  apply (@wireDomain_leaves_live_route _ Sample.remote_api Sample.env_alive
           Scenario.opt_permissive Sample.dev (Sample.world_with (Sample.route_to 5174))
           (Sample.world_with (Sample.route_to 5174)) 5173 5174
           (Some [Sample.route_to 5174]) (Sample.route_to 5174) 0
           ltac:(vm_compute; reflexivity) ltac:(vm_compute; reflexivity)
           ltac:(vm_compute; reflexivity) ltac:(vm_compute; reflexivity)
           ltac:(vm_compute; reflexivity) ltac:(discriminate)
           ltac:(vm_compute; reflexivity) ltac:(right; reflexivity)).
Defined.

(** ** The bootstrap on the store: what it establishes and what it keeps *)

Section StoreOutcome.

Variable opt : InternalOptions.
Variable domain : string.

Lemma reconciled_listen_covers (sv : Server) (a : string) :
  a ∈ opt_listen opt -> a ∈ default [] (listen (Outcome.reconciled_server opt sv)).
Proof.
  intros Ha. unfold Outcome.reconciled_server. cbn [listen].
  assert (Hin : a ∈ Outcome.merged_listen opt (listen sv)).
  { unfold Outcome.merged_listen. apply SetFacts.set_of_elem_of, elem_of_app.
    right. now apply SetFacts.set_of_elem_of. }
  destruct (arraysEqual _ _) eqn:E; [|exact Hin].
  apply SetFacts.arraysEqual_eq in E. now rewrite E.
Qed.

Lemma reconciled_not_disabled (sv : Server) (a : AutoHttps) :
  automatic_https (Outcome.reconciled_server opt sv) = Some a -> disable a <> Some true.
Proof.
  unfold Outcome.reconciled_server. cbn [automatic_https].
  destruct (automatic_https sv) as [[[[|]|] oth]|]; intros [= <-]; discriminate.
Qed.

Lemma reconciled_fixed (sv : Server) (cur : list string) :
  listen sv = Some cur -> NoDup cur ->
  (forall a, a ∈ opt_listen opt -> a ∈ cur) ->
  (forall a, automatic_https sv = Some a -> disable a <> Some true) ->
  Outcome.reconciled_server opt sv = sv.
Proof.
  intros Hl Hnd Hsub Hauto. destruct sv as [l rs au oth]. cbn in *. subst l.
  unfold Outcome.reconciled_server, Outcome.merged_listen.
  cbn [listen routes automatic_https server_others default from_option id].
  assert (Hsame : set_of (cur ++ set_of (opt_listen opt)) = cur).
  { unfold set_of at 1. rewrite fold_left_app. fold (set_of cur).
    rewrite (SetFacts.set_of_fresh _ Hnd). apply SetFacts.fold_set_add_absorb.
    intros x Hx. apply Hsub. now apply SetFacts.set_of_elem_of. }
  rewrite Hsame, (proj2 (SetFacts.arraysEqual_eq _ _) eq_refl). f_equal.
  destruct au as [[[[|]|] o]|]; try reflexivity.
  now destruct (Hauto _ eq_refl).
Qed.

Lemma with_server_fixed (c : Config) (sv : Server) :
  Store.at_server (serverId opt) (Some c) = Some sv ->
  Outcome.reconciled_server opt sv = sv ->
  Outcome.with_server opt c = c.
Proof.
  intros Hsv Hrec.
  destruct c as [[[[[[m|] ho]|] t ao]|] co]; try discriminate.
  cbn -[lookup] in Hsv. unfold Outcome.with_server.
  cbn [apps http tls servers default from_option id http_others apps_others
       config_others].
  rewrite Hsv, Hrec, (insert_id _ _ _ Hsv). reflexivity.
Qed.

Lemma with_tls_fixed (c : Config) (ps : list Policy) :
  Store.at_policies (Some c) = Some ps ->
  existsb (covers domain) ps = true ->
  Outcome.with_tls domain c = c.
Proof.
  intros Hps Hcov.
  destruct c as [[[h [[[[[ps'|] auo]|] to]|] ao]|] co]; try discriminate.
  injection Hps as ->. unfold Outcome.with_tls, Outcome.tls_after, Outcome.automation_after.
  cbn [apps tls automation policies default from_option id
       automation_others tls_others apps_others config_others http].
  now rewrite OutcomeFacts.policies_after_cases, Hcov.
Qed.

Lemma at_policies_with_server (c : Config) :
  Store.at_policies (Some (Outcome.with_server opt c)) = Store.at_policies (Some c).
Proof. destruct c as [[[h t ao]|] co]; reflexivity. Qed.

Lemma bootstrap_fixed (c : Config) (sv : Server) (cur : list string) (ps : list Policy) :
  Store.at_server (serverId opt) (Some c) = Some sv ->
  listen sv = Some cur -> NoDup cur ->
  (forall a, a ∈ opt_listen opt -> a ∈ cur) ->
  (forall a, automatic_https sv = Some a -> disable a <> Some true) ->
  Store.at_policies (Some c) = Some ps ->
  existsb (covers domain) ps = true ->
  Outcome.bootstrap opt domain (Some c) = Some c.
Proof.
  intros Hsv Hl Hnd Hsub Hauto Hps Hcov. cbn [Outcome.bootstrap].
  rewrite (with_server_fixed c sv Hsv (reconciled_fixed sv cur Hl Hnd Hsub Hauto)).
  now rewrite (with_tls_fixed c ps Hps Hcov).
Qed.

End StoreOutcome.

(** X14: from every starting tree, unset or not, the bootstrap on the
    store returns without throwing and leaves a tree in which the
    managed server exists, every desired listen address is among its
    listen addresses, its automatic HTTPS is not disabled, and some TLS
    policy references the domain with the internal issuer; the
    development server is not touched. *)
Theorem bootstrap_establishes (env : Env) (opt : InternalOptions)
    (array_put : Z -> CaddyRoute -> list CaddyRoute -> option (list CaddyRoute))
    (domain : string) (w : World Store.state) :
  exists (w' : World Store.state) (sv : Server),
    @ensureCaddyServerExists _ (store_remote (serverId opt) array_put) env opt domain w
    = (Ok tt, w')
    /\ server_closed w' = server_closed w
    /\ Store.at_server (serverId opt) (remote w') = Some sv
    /\ (forall a, a ∈ opt_listen opt -> a ∈ default [] (listen sv))
    /\ (forall a, automatic_https sv = Some a -> disable a <> Some true)
    /\ (exists p, p ∈ default [] (Store.at_policies (remote w')) /\ references domain p).
Proof.
  destruct w as [s closed]. eexists. 
  assert (Hpol : exists p, p ∈ default [] (Store.at_policies (Outcome.bootstrap opt domain s))
                           /\ references domain p).
  { apply existsb_references. destruct s as [c|]; cbn [Outcome.bootstrap].
    - rewrite at_policies_with_tls. cbn [default from_option id].
      apply OutcomeFacts.policies_after_covered.
    - cbn. now rewrite String.eqb_refl. }
  destruct s as [c|].
  - eexists. split; [apply ensureCaddyServerExists_store|].
    cbn [remote server_closed]. split; [reflexivity|].
    split; [apply at_server_bootstrap|].
    destruct (Store.at_server (serverId opt) (Some c)) as [sv0|].
    + split; [intros a; apply reconciled_listen_covers|].
      split; [apply reconciled_not_disabled | exact Hpol].
    + split; [intros a Ha; exact Ha|]. split; [discriminate | exact Hpol].
  - exists (new_server opt). split; [apply ensureCaddyServerExists_store|].
    cbn [remote server_closed]. split; [reflexivity|].
    split.
    { cbn -[lookup]. apply lookup_singleton_eq. }
    split; [intros a Ha; exact Ha|]. split; [discriminate | exact Hpol].
Qed.

(** X15: on a tree that is set, the bootstrap keeps what it does not
    manage: the routes and the unnamed fields of the managed server
    when it existed, every other server, every policy that was there
    (new ones come after them), and the unnamed fields of the root and
    of [apps]. *)
Theorem bootstrap_preserves (env : Env) (opt : InternalOptions)
    (array_put : Z -> CaddyRoute -> list CaddyRoute -> option (list CaddyRoute))
    (domain : string) (c : Config) (closed : bool) :
  exists (w' : World Store.state) (c' : Config),
    @ensureCaddyServerExists _ (store_remote (serverId opt) array_put) env opt domain
       {| remote := Some c; server_closed := closed |} = (Ok tt, w')
    /\ remote w' = Some c'
    /\ (forall sv, Store.at_server (serverId opt) (Some c) = Some sv ->
          exists sv', Store.at_server (serverId opt) (Some c') = Some sv'
                      /\ routes sv' = routes sv
                      /\ server_others sv' = server_others sv)
    /\ (forall m other, Store.at_servers (Some c) = Some m -> other <> serverId opt ->
          exists m', Store.at_servers (Some c') = Some m' /\ m' !! other = m !! other)
    /\ (exists added,
          default [] (Store.at_policies (Some c'))
          = (default [] (Store.at_policies (Some c)) ++ added)%list)
    /\ config_others c' = config_others c
    /\ (forall a, apps c = Some a ->
          exists a', apps c' = Some a' /\ apps_others a' = apps_others a).
Proof.
  eexists. eexists. split; [apply ensureCaddyServerExists_store|].
  cbn [remote Outcome.bootstrap]. split; [reflexivity|].
  split; [|split; [|split; [|split]]].
  - intros sv Hsv. eexists.
    split; [apply (at_server_bootstrap opt domain c)|]. rewrite Hsv.
    split; reflexivity.
  - intros m other Hm Hother.
    destruct c as [[[[[[m0|] ho]|] t ao]|] co]; try discriminate.
    injection Hm as ->. eexists. split; [reflexivity|].
    now apply lookup_insert_ne.
  - rewrite at_policies_with_tls. cbn [default from_option id].
    rewrite at_policies_with_server, OutcomeFacts.policies_after_cases.
    destruct (existsb _ _); [exists []; now rewrite app_nil_r | eauto].
  - destruct c as [[[h t ao]|] co]; reflexivity.
  - intros a Ha. destruct c as [[[h t ao]|] co]; [|discriminate].
    injection Ha as <-. eexists. split; reflexivity.
Qed.

Lemma bootstrap_preserves_witness :
  exists sv',
    Store.at_server "vite-dev"
      (remote (snd (@ensureCaddyServerExists _ Sample.remote_api Sample.env Sample.opt
                      "app.localhost" (Sample.world_with Scenario.other_route))))
    = Some sv'
    /\ routes sv' = Some [Scenario.other_route]
    /\ server_others sv' = [("logs", "{}")].
Proof.
  destruct (bootstrap_preserves Sample.env Sample.opt Sample.overwrite "app.localhost"
              (Sample.config_with Scenario.other_route) false)
    as (w' & c' & Hrun & Hremote & Hserver & _).
  destruct (Hserver _ ltac:(vm_compute; reflexivity)) as (sv' & Hsv' & Hroutes & Hothers).
  exists sv'. unfold Sample.remote_api, Sample.world_with.
  cbn [serverId Sample.opt] in Hrun, Hsv'. rewrite Hrun. cbn [snd]. rewrite Hremote.
  split; [exact Hsv'|]. split; [exact Hroutes | exact Hothers].
Defined.

(** X16: the bootstrap changes nothing when everything is in place: if
    the managed server exists with a duplicate-free listen list that
    holds every desired address, its automatic HTTPS is not disabled,
    and some policy references the domain with the internal issuer,
    the tree after the bootstrap is the tree before it. *)
Theorem bootstrap_settled (env : Env) (opt : InternalOptions)
    (array_put : Z -> CaddyRoute -> list CaddyRoute -> option (list CaddyRoute))
    (domain : string) (c : Config) (closed : bool)
    (sv : Server) (cur : list string) (ps : list Policy) :
  Store.at_server (serverId opt) (Some c) = Some sv ->
  listen sv = Some cur -> NoDup cur ->
  (forall a, a ∈ opt_listen opt -> a ∈ cur) ->
  (forall a, automatic_https sv = Some a -> disable a <> Some true) ->
  Store.at_policies (Some c) = Some ps ->
  (exists p, p ∈ ps /\ references domain p) ->
  @ensureCaddyServerExists _ (store_remote (serverId opt) array_put) env opt domain
     {| remote := Some c; server_closed := closed |}
  = (Ok tt, {| remote := Some c; server_closed := closed |}).
Proof.
  intros Hsv Hl Hnd Hsub Hauto Hps Hcov. rewrite ensureCaddyServerExists_store.
  apply existsb_references in Hcov.
  now rewrite (bootstrap_fixed opt domain c sv cur ps Hsv Hl Hnd Hsub Hauto Hps Hcov).
Qed.

Lemma bootstrap_settled_witness :
  @ensureCaddyServerExists _ Sample.remote_api Sample.env Sample.opt "app.localhost"
     (Sample.world_with Scenario.other_route)
  = (Ok tt, Sample.world_with Scenario.other_route).
Proof.
  apply (bootstrap_settled Sample.env Sample.opt Sample.overwrite "app.localhost"
           (Sample.config_with Scenario.other_route) false
           {| listen := Some [":443"; ":80"]; routes := Some [Scenario.other_route];
              automatic_https := None; server_others := [("logs", "{}")] |}
           [":443"; ":80"] [internal_policy "app.localhost"]).
  - vm_compute. reflexivity.
  - reflexivity.
  - apply (bool_decide_unpack (NoDup [":443"; ":80"])). vm_compute. exact I.
  - intros a Ha. exact Ha.
  - discriminate.
  - reflexivity.
  - exists (internal_policy "app.localhost"). split.
    + apply list_elem_of_singleton. reflexivity.
    + apply OutcomeFacts.covers_references. vm_compute. reflexivity.
Defined.

(** ** From an unset configuration to a wired domain *)

Section FreshStart.

Variable env : Env.
Variable opt : InternalOptions.
Variable array_put : Z -> CaddyRoute -> list CaddyRoute -> option (list CaddyRoute).

Let api : Remote Store.state := store_remote (serverId opt) array_put.
Let D : string := _computeDomain env opt.

(** The tree after the first [wireDomain] on an unset configuration. *)
Let wired (P : N) : Config :=
  {| apps := Some
       {| http := Some {| servers := Some
            {[ serverId opt := {| listen := Some (opt_listen opt);
                                  routes := Some [build_route D P];
                                  automatic_https := None;
                                  server_others := [] |} ]};
                          http_others := [] |};
          tls := Some {| automation := Some
                           {| policies := Some [internal_policy D];
                              automation_others := [] |};
                         tls_others := [] |};
          apps_others := [] |};
     config_others := [] |}.

Lemma route_matches_built (P : N) : route_matches (build_route D P) D = true.
Proof.
  unfold route_matches, build_route, includes. cbn. now rewrite String.eqb_refl.
Qed.

Lemma extract_built (P : N) : extractUpstreamPort (build_route D P) = Some P.
Proof.
  unfold extractUpstreamPort, build_route. cbn [handle default from_option id first_port].
  now rewrite PortFacts.handler_port_built.
Qed.

Lemma wireDomain_fresh (server : DevServer) (closed : bool) (P : N) :
  truthy_port (dev_port server) = Some P ->
  insertFirst opt = false \/ (forall r, array_put 0%Z r [] = Some [r]) ->
  @wireDomain _ api env opt server {| remote := None; server_closed := closed |}
  = (Ok tt, {| remote := Some (wired P); server_closed := closed |}).
Proof.
  intros HP Hput.
  rewrite (@wireDomain_decision _ api env opt server _
             {| remote := Some (seed_config opt D); server_closed := closed |}
             P (Some []) HP).
  - cbn [findRouteByHost findRouteFrom]. unfold addRoute, put, post.
    destruct (insertFirst opt) eqn:Hfirst.
    + destruct Hput as [? | Hput]; [discriminate|].
      unfold api. apply req_store.
      cbn -[lookup insert]. unfold Store.in_server. rewrite lookup_singleton_eq.
      cbn -[lookup insert]. rewrite Hput. cbn -[lookup insert].
      now rewrite insert_singleton_eq.
    + unfold api. apply req_store.
      cbn -[lookup insert]. unfold Store.in_server. rewrite lookup_singleton_eq.
      cbn -[lookup insert]. now rewrite insert_singleton_eq.
  - apply (ensureCaddyServerExists_store env opt array_put D None closed).
  - unfold getRoutes, api. rewrite (get_store env opt array_put p_routes).
    cbn -[lookup]. now rewrite lookup_singleton_eq.
Qed.

Lemma wireDomain_again (server : DevServer) (closed : bool) (P : N) :
  truthy_port (dev_port server) = Some P ->
  NoDup (opt_listen opt) ->
  @isPortActive Store.state env P {| remote := Some (wired P); server_closed := closed |}
  = (Ok true, {| remote := Some (wired P); server_closed := closed |}) ->
  @wireDomain _ api env opt server {| remote := Some (wired P); server_closed := closed |}
  = (Ok tt, {| remote := Some (wired P); server_closed := closed |}).
Proof.
  intros HP Hnd Hlive.
  assert (HP0 : P <> 0%N)
    by (destruct (dev_port server) as [[|]|]; simpl in HP; congruence).
  rewrite (@wireDomain_decision _ api env opt server _
             {| remote := Some (wired P); server_closed := closed |}
             P (Some [build_route D P]) HP).
  - cbn [findRouteByHost findRouteFrom]. fold D. rewrite route_matches_built, extract_built.
    destruct P as [|p]; [contradiction|]. cbn [truthy_port].
    unfold bind at 1. rewrite Hlive. cbn iota. now rewrite N.eqb_refl.
  - fold D. rewrite (ensureCaddyServerExists_store env opt array_put D).
    assert (Hsv : Store.at_server (serverId opt) (Some (wired P))
                  = Some {| listen := Some (opt_listen opt);
                            routes := Some [build_route D P];
                            automatic_https := None; server_others := [] |})
      by (cbn -[lookup]; apply lookup_singleton_eq).
    assert (Hcov : existsb (covers D) [internal_policy D] = true)
      by (cbn [existsb]; now rewrite OutcomeFacts.covers_internal_policy).
    now rewrite (bootstrap_fixed opt D (wired P) _ (opt_listen opt) [internal_policy D]
                   Hsv eq_refl Hnd (fun a Ha => Ha)
                   (fun a (Ha : None = Some a) => ltac:(discriminate)) eq_refl Hcov).
  - unfold getRoutes, api. rewrite (get_store env opt array_put p_routes).
    cbn -[lookup]. now rewrite lookup_singleton_eq.
Qed.

End FreshStart.

(** X17: end to end on the store. From an unset configuration,
    [wireDomain] returns normally and leaves a tree whose managed
    server listens on the desired addresses and has exactly one route,
    the one for the computed domain and the local port, with the
    internal-issuer policy for that domain (the new route is posted
    when [insertFirst] is off; when it is on, the remote must accept a
    [PUT] at index 0 of an empty array). Running [wireDomain] again on
    that tree, with the local port alive and no repeated listen
    address, changes nothing. *)
Theorem wireDomain_fresh_then_again (env : Env) (opt : InternalOptions)
    (array_put : Z -> CaddyRoute -> list CaddyRoute -> option (list CaddyRoute))
    (server : DevServer) (closed : bool) (P : N) :
  truthy_port (dev_port server) = Some P ->
  insertFirst opt = false \/ (forall r, array_put 0%Z r [] = Some [r]) ->
  exists w',
    @wireDomain _ (store_remote (serverId opt) array_put) env opt server
       {| remote := None; server_closed := closed |} = (Ok tt, w')
    /\ server_closed w' = closed
    /\ Store.at_routes (serverId opt) (remote w')
       = Some [build_route (_computeDomain env opt) P]
    /\ Store.at_listen (serverId opt) (remote w') = Some (opt_listen opt)
    /\ Store.at_policies (remote w') = Some [internal_policy (_computeDomain env opt)]
    /\ (NoDup (opt_listen opt) ->
        @isPortActive Store.state env P w' = (Ok true, w') ->
        @wireDomain _ (store_remote (serverId opt) array_put) env opt server w'
        = (Ok tt, w')).
Proof.
  intros HP Hput. eexists.
  split; [apply (wireDomain_fresh env opt array_put server closed P HP Hput)|].
  cbn [remote server_closed]. split; [reflexivity|].
  split; [cbn -[lookup]; now rewrite lookup_singleton_eq|].
  split; [cbn -[lookup]; now rewrite lookup_singleton_eq|].
  split; [reflexivity|].
  intros Hnd Hlive. now apply wireDomain_again.
Qed.

Lemma wireDomain_fresh_then_again_witness :
  exists w',
    @wireDomain _ Sample.remote_api Sample.env_alive Scenario.opt_permissive Sample.dev
       Sample.blank = (Ok tt, w')
    /\ Store.at_routes "vite-dev" (remote w') = Some [build_route "app.localhost" 5173]
    /\ @wireDomain _ Sample.remote_api Sample.env_alive Scenario.opt_permissive
         Sample.dev w' = (Ok tt, w').
Proof.
  destruct (wireDomain_fresh_then_again Sample.env_alive Scenario.opt_permissive
              Sample.overwrite Sample.dev false 5173
              ltac:(reflexivity) ltac:(left; reflexivity))
    as (w' & Hrun & _ & Hroutes & _ & _ & Hagain).
  exists w'. split; [exact Hrun|]. split; [exact Hroutes|].
  apply Hagain.
  - apply (bool_decide_unpack (NoDup [":443"; ":80"])). vm_compute. exact I.
  - reflexivity.
Defined.

(** ** The TLS policy step, for any remote *)

(** X18: against any remote whose [apps], [tls], [automation] and
    [policies] nodes answer a [GET] with success, [ensureTlsPolicy]
    sends no [PUT] at all; it sends nothing whatever when the policy
    list it reads has an entry that references the domain with the
    internal issuer, and otherwise its only request is one [POST] of
    the internal policy for the domain to the policy list, whose
    outcome it returns. *)
Theorem ensureTlsPolicy_requests {R : Type} `{Remote R} (env : Env) (opt : InternalOptions)
    (d : string) (w : World R) (got : option (list Policy)) :
  Http.ok (fetch_get p_apps (remote w)) = true ->
  Http.ok (fetch_get p_tls (remote w)) = true ->
  Http.ok (fetch_get p_automation (remote w)) = true ->
  Http.ok (fetch_get p_policies (remote w)) = true ->
  fst (get env opt p_policies w) = Ok got ->
  ((exists p, p ∈ default [] got /\ references d p) ->
     ensureTlsPolicy env opt d w = (Ok tt, w))
  /\ (~ (exists p, p ∈ default [] got /\ references d p) ->
      ensureTlsPolicy env opt d w = post env opt p_policies (internal_policy d) w).
Proof.
  intros Happs Htls Hauto Hpol Hgot.
  assert (Hrun : ensureTlsPolicy env opt d w
                 = (if existsb (covers d) (default [] got) then ret tt
                    else post env opt p_policies (internal_policy d)) w).
  { unfold ensureTlsPolicy, ensurePath, bind, have.
    rewrite Happs. cbn [negb]. unfold ret at 1. rewrite Htls. cbn [negb].
    rewrite Hauto. cbn [negb]. unfold ret at 1. rewrite Hpol. cbn [negb].
    unfold ret at 1. unfold get in *. cbn [fst] in Hgot. rewrite Hgot.
    rewrite OutcomeFacts.findIndex_spec.
    now destruct (existsb (covers d) (default [] got)). }
  rewrite Hrun. split.
  - intros Hex. apply existsb_references in Hex. now rewrite Hex.
  - intros Hno. destruct (existsb (covers d) (default [] got)) eqn:E; [|reflexivity].
    apply existsb_references in E. contradiction.
Qed.

Lemma ensureTlsPolicy_requests_witness :
  @ensureTlsPolicy _ Sample.remote_api Sample.env Sample.opt "app.localhost"
     (Sample.world_with Scenario.other_route)
  = (Ok tt, Sample.world_with Scenario.other_route).
Proof.
  apply (@ensureTlsPolicy_requests _ Sample.remote_api Sample.env Sample.opt
           "app.localhost" (Sample.world_with Scenario.other_route)
           (Some [internal_policy "app.localhost"])
           ltac:(vm_compute; reflexivity) ltac:(vm_compute; reflexivity)
           ltac:(vm_compute; reflexivity) ltac:(vm_compute; reflexivity)
           ltac:(vm_compute; reflexivity)).
  exists (internal_policy "app.localhost"). split.
  - apply list_elem_of_singleton. reflexivity.
  - apply OutcomeFacts.covers_references. vm_compute. reflexivity.
Defined.
